(** * ldx.ext.cache: the file cache with LFU eviction

  A shallow embedding of [src/ldx/ext/cache.py]: the two class-level
  dictionaries of [AttrMeta], the methods [__real_load__] and [_loadFile]
  of [AttrMixin], and the properties of the cache that follow from them.

  Python dictionaries keep their keys in insertion order and [sorted] is a
  stable sort, so the dictionaries are association lists and the eviction
  order is the order of those lists.  A call may raise after it has already
  mutated the class attributes, so every method is a function from the
  world before the call to an outcome (a value or an exception) paired with
  the world after it. *)

From Stdlib Require Import ZArith List String Bool Lia Permutation.
Import ListNotations.
Local Open Scope Z_scope.

(** ** Python dictionaries with string keys *)

Module Dict.
Section Dict.
Context {V : Type}.

Definition t := list (string * V).

Definition keys (d : t) : list string := map fst d.

(** [k in d] *)
Definition contains (k : string) (d : t) : bool :=
  existsb (String.eqb k) (keys d).

(** [d.get(k)] *)
Fixpoint get (k : string) (d : t) : option V :=
  match d with
  | [] => None
  | (k', v) :: r => if String.eqb k k' then Some v else get k r
  end.

(** [d[k] = v]: an existing key keeps its position, a new key goes last *)
Fixpoint set (k : string) (v : V) (d : t) : t :=
  match d with
  | [] => [(k, v)]
  | (k', v') :: r =>
      if String.eqb k k' then (k', v) :: r else (k', v') :: set k v r
  end.

Definition remove (k : string) (d : t) : t :=
  filter (fun kv => negb (String.eqb k (fst kv))) d.

(** [del d[k]]: [None] stands for [KeyError] *)
Definition del (k : string) (d : t) : option t :=
  if contains k d then Some (remove k d) else None.

(** [len(d)] *)
Definition len (d : t) : Z := Z.of_nat (List.length d).

(** The keys of a dictionary are pairwise distinct. *)
Definition wf (d : t) : Prop := NoDup (keys d).

(** Removal of a whole list of keys. *)
Definition remove_all (ks : list string) (d : t) : t :=
  filter (fun kv => negb (existsb (String.eqb (fst kv)) ks)) d.

End Dict.
Arguments t : clear implicits.
End Dict.

(** ** The builtins [sorted(..., key=...)] and [l[:n]] *)

Section Builtins.
Context {A : Type}.
Variable key : A -> Z.

(** [x] goes in front of the first element whose key is not smaller, so
    that it stays ahead of the equal keys that came after it. *)
Fixpoint insert_by (x : A) (l : list A) : list A :=
  match l with
  | [] => [x]
  | y :: r => if key x <=? key y then x :: y :: r else y :: insert_by x r
  end.

(** [sorted(l, key=key)]: ascending and stable *)
Fixpoint sorted (l : list A) : list A :=
  match l with
  | [] => []
  | x :: r => insert_by x (sorted r)
  end.

(** [l[:n]]: a negative bound counts from the end *)
Definition slice_to (n : Z) (l : list A) : list A :=
  if n <? 0 then firstn (Z.to_nat (Z.of_nat (List.length l) + n)) l
  else firstn (Z.to_nat n) l.
End Builtins.

(** ** Data model *)

(** [class FileMeta(TypedDict)].  Only equality of timestamps is ever used, so
  a timestamp is an integer. *)
Record FileMeta := { mtime : Z; ac : Z }.

(** The exceptions a load can raise: [KeyError] from a dictionary,
  [OSError] (the spec's IOError) from the file system and
  [JSONDecodeError] (the spec's ParseError) from [json.loads]. *)
Inductive exn := KeyError | OSError | JSONDecodeError.

Inductive result (A : Type) :=
| Ok (a : A)
| Raise (e : exn).
Arguments Ok {A} a.
Arguments Raise {A} e.

(** A file as the cache sees it: its modification time and what
  [open(path).read()] gives, [None] when the read raises. *)
Record File := { f_mtime : Z; f_read : option string }.

(** The file system during one call: the files that exist. *)
Definition FS := string -> option File.

(** The calls made to the file system, in order. *)
Inductive syscall :=
| SysExists (path : string)
| SysGetmtime (path : string)
| SysOpenRead (path : string).

Section Cache.
(** The parsed JSON values are opaque to the cache; [json_loads] gives
    [None] when the text is not valid JSON. *)
Variable payload : Type.
Variable json_loads : string -> option payload.

(** The class attributes of [AttrMeta] that the cache uses. *)
Record AttrMeta := {
  _opened_files : Dict.t payload;
  _opened_meta : Dict.t FileMeta;
  _total_cached : Z
}.

Record World := { cache : AttrMeta; trace : list syscall }.

(** *** State and exceptions *)

Definition M (A : Type) := World -> result A * World.

Definition ret {A} (a : A) : M A := fun w => (Ok a, w).

Definition raise {A} (e : exn) : M A := fun w => (Raise e, w).

Definition bind {A B} (m : M A) (k : A -> M B) : M B :=
  fun w =>
    match m w with
    | (Ok a, w') => k a w'
    | (Raise e, w') => (Raise e, w')
    end.

Notation "x <- m ;; k" := (bind m (fun x => k))
  (at level 61, m at next level, right associativity).
Notation "m ;; k" := (bind m (fun _ => k))
  (at level 61, right associativity).

Definition get_cache : M AttrMeta := fun w => (Ok (cache w), w).

Definition put_files (d : Dict.t payload) : M unit :=
  fun w =>
    (Ok tt,
     {| cache := {| _opened_files := d;
                    _opened_meta := _opened_meta (cache w);
                    _total_cached := _total_cached (cache w) |};
        trace := trace w |}).

Definition put_meta (d : Dict.t FileMeta) : M unit :=
  fun w =>
    (Ok tt,
     {| cache := {| _opened_files := _opened_files (cache w);
                    _opened_meta := d;
                    _total_cached := _total_cached (cache w) |};
        trace := trace w |}).

Definition syscall_log (c : syscall) : M unit :=
  fun w => (Ok tt, {| cache := cache w; trace := trace w ++ [c] |}).

Fixpoint for_each {A} (l : list A) (body : A -> M unit) : M unit :=
  match l with
  | [] => ret tt
  | x :: r => body x ;; for_each r body
  end.

(** *** The file system and the parser *)

Section Calls.
Variable fs : FS.

Definition os_path_exists (path : string) : M bool :=
  syscall_log (SysExists path) ;;
  ret (match fs path with Some _ => true | None => false end).

Definition os_path_getmtime (path : string) : M Z :=
  syscall_log (SysGetmtime path) ;;
  match fs path with
  | Some f => ret (f_mtime f)
  | None => raise OSError
  end.

(** [with open(path, "r") as f: raw = f.read()] *)
Definition open_read (path : string) : M string :=
  syscall_log (SysOpenRead path) ;;
  match fs path with
  | Some f =>
      match f_read f with
      | Some raw => ret raw
      | None => raise OSError
      end
  | None => raise OSError
  end.

Definition json_loads_m (raw : string) : M payload :=
  match json_loads raw with
  | Some data => ret data
  | None => raise JSONDecodeError
  end.

(** *** Statements on the two dictionaries *)

(** [del AttrMeta._opened_files[path]] *)
Definition del_opened_files (path : string) : M unit :=
  c <- get_cache ;;
  match Dict.del path (_opened_files c) with
  | Some d => put_files d
  | None => raise KeyError
  end.

(** [del AttrMeta._opened_meta[path]] *)
Definition del_opened_meta (path : string) : M unit :=
  c <- get_cache ;;
  match Dict.del path (_opened_meta c) with
  | Some d => put_meta d
  | None => raise KeyError
  end.

(** [AttrMeta._opened_files[path] = data] *)
Definition set_opened_files (path : string) (data : payload) : M unit :=
  c <- get_cache ;;
  put_files (Dict.set path data (_opened_files c)).

(** [AttrMeta._opened_meta[path] = meta] *)
Definition set_opened_meta (path : string) (meta : FileMeta) : M unit :=
  c <- get_cache ;;
  put_meta (Dict.set path meta (_opened_meta c)).

(** [AttrMeta._opened_meta[path]["ac"] += 1] *)
Definition bump_ac (path : string) : M unit :=
  c <- get_cache ;;
  match Dict.get path (_opened_meta c) with
  | Some m =>
      put_meta (Dict.set path {| mtime := mtime m; ac := ac m + 1 |}
                  (_opened_meta c))
  | None => raise KeyError
  end.

(** [AttrMeta._opened_files[path]] *)
Definition getitem_opened_files (path : string) : M payload :=
  c <- get_cache ;;
  match Dict.get path (_opened_files c) with
  | Some v => ret v
  | None => raise KeyError
  end.

(** *** [AttrMixin.__real_load__] *)

(** The entries line 87 selects: the head of the metadata sorted by [ac]. *)
Definition to_evict (c : AttrMeta) : list (string * FileMeta) :=
  let sorted_meta := sorted (fun item => ac (snd item)) (_opened_meta c) in
  let num_to_evict := Dict.len (_opened_files c) - _total_cached c + 1 in
  slice_to num_to_evict sorted_meta.

(** The body of the loop of lines 88-90. *)
Definition evict_one (evict_path : string) : M unit :=
  del_opened_files evict_path ;;
  del_opened_meta evict_path.

(** Lines 79-90. *)
Definition evict : M unit :=
  c <- get_cache ;;
  if Dict.len (_opened_files c) >=? _total_cached c then
    for_each (to_evict c) (fun item => evict_one (fst item))
  else ret tt.

(** Lines 94-103. *)
Definition actual_load (path : string) : M payload :=
  raw <- open_read path ;;
  data <- json_loads_m raw ;;
  set_opened_files path data ;;
  mt <- os_path_getmtime path ;;
  set_opened_meta path {| mtime := mt; ac := 1 |} ;;
  ret data.

Definition __real_load__ (path : string) : M payload :=
  evict ;;
  actual_load path.

(** *** [AttrMixin._loadFile] *)

(** The test of line 129; [and] evaluates its right operand only when the
    left one holds, and [.get(path, {}).get("mtime", 0)] is 0 for a path
    without metadata. *)
Definition is_fresh (path : string) : M bool :=
  c <- get_cache ;;
  if Dict.contains path (_opened_files c) then
    let stored :=
      match Dict.get path (_opened_meta c) with
      | Some m => mtime m
      | None => 0
      end in
    now_ <- os_path_getmtime path ;;
    ret (stored =? now_)
  else ret false.

Definition _loadFile (path : string) : M (option payload) :=
  present <- os_path_exists path ;;
  if negb present then
    (c <- get_cache ;;
     if Dict.contains path (_opened_files c)
     then del_opened_files path else ret tt) ;;
    (c <- get_cache ;;
     if Dict.contains path (_opened_meta c)
     then del_opened_meta path else ret tt) ;;
    ret None
  else
    fresh <- is_fresh path ;;
    if fresh then
      bump_ac path ;;
      v <- getitem_opened_files path ;;
      ret (Some v)
    else
      raw <- __real_load__ path ;;
      ret (Some raw).
End Calls.

(** *** Vocabulary of the properties *)

(** The two dictionaries list the same paths in the same order, each once. *)
Definition synced (c : AttrMeta) : Prop :=
  Dict.keys (_opened_files c) = Dict.keys (_opened_meta c) /\
  Dict.wf (_opened_files c).

(** The cache entry of a path: its payload and its metadata. *)
Definition entry (path : string) (c : AttrMeta) : option (payload * FileMeta) :=
  match Dict.get path (_opened_files c), Dict.get path (_opened_meta c) with
  | Some v, Some m => Some (v, m)
  | _, _ => None
  end.

(** The cache of a fresh process. *)
Definition empty_world (capacity : Z) : World :=
  {| cache := {| _opened_files := []; _opened_meta := [];
                 _total_cached := capacity |};
     trace := [] |}.

(** The same world with other dictionaries. *)
Definition with_dicts (w : World) (files : Dict.t payload)
    (meta : Dict.t FileMeta) : World :=
  {| cache := {| _opened_files := files; _opened_meta := meta;
                 _total_cached := _total_cached (cache w) |};
     trace := trace w |}.

(** The world lines 79-90 leave behind when no [del] raises. *)
Definition evicted (w : World) : World :=
  if Dict.len (_opened_files (cache w)) >=? _total_cached (cache w) then
    with_dicts w
      (Dict.remove_all (map fst (to_evict (cache w))) (_opened_files (cache w)))
      (Dict.remove_all (map fst (to_evict (cache w))) (_opened_meta (cache w)))
  else w.

(** The same world after more calls to the file system. *)
Definition with_calls (w : World) (cs : list syscall) : World :=
  {| cache := cache w; trace := trace w ++ cs |}.

(** A caller that goes on after every call, whatever its outcome; the file
    system may differ from one call to the next. *)
Fixpoint run_loads (calls : list (FS * string)) (w : World) : World :=
  match calls with
  | [] => w
  | (fs, path) :: r => run_loads r (snd (_loadFile fs path w))
  end.

(** The outcomes of the same calls. *)
Fixpoint run_results (calls : list (FS * string)) (w : World)
    : list (result (option payload)) :=
  match calls with
  | [] => []
  | (fs, path) :: r =>
      fst (_loadFile fs path w) :: run_results r (snd (_loadFile fs path w))
  end.

(** The file exists and line 129 does not take the cached value: the path
    has no payload, or its stored [mtime] is not the file's. *)
Definition needs_reload (fs : FS) (path : string) (c : AttrMeta) : Prop :=
  exists f, fs path = Some f /\
    (Dict.contains path (_opened_files c) = false \/
     match Dict.get path (_opened_meta c) with
     | Some m => mtime m
     | None => 0
     end <> f_mtime f).

(** What [_loadFile] makes of the outcome of [__real_load__]. *)
Definition returned (r : result payload * World)
    : result (option payload) * World :=
  match r with
  | (Ok data, w) => (Ok (Some data), w)
  | (Raise e, w) => (Raise e, w)
  end.

(** Every run of [m] from a world with [P] ends in a world with [P],
    whether it returns or raises. *)
Definition preserves {A} (P : World -> Prop) (m : M A) : Prop :=
  forall w, P w -> P (snd (m w)).

(** The path has neither a payload nor metadata. *)
Definition absent (path : string) (w : World) : Prop :=
  ~ In path (Dict.keys (_opened_files (cache w))) /\
  ~ In path (Dict.keys (_opened_meta (cache w))).

(** The access counts of the cached paths, in dictionary order. *)
Definition counts (c : AttrMeta) : list (string * Z) :=
  map (fun item => (fst item, ac (snd item))) (_opened_meta c).

End Cache.

Arguments _opened_files {payload} a.
Arguments _opened_meta {payload} a.
Arguments _total_cached {payload} a.
Arguments cache {payload} w.
Arguments trace {payload} w.
Arguments M payload A : clear implicits.
Arguments ret {payload A} a w.
Arguments raise {payload A} e w.
Arguments bind {payload A B} m k w.
Arguments for_each {payload A} l body.
Arguments to_evict {payload} c.
Arguments evict_one {payload} evict_path.
Arguments evict {payload}.
Arguments actual_load {payload} json_loads fs path.
Arguments __real_load__ {payload} json_loads fs path.
Arguments is_fresh {payload} fs path.
Arguments _loadFile {payload} json_loads fs path.
Arguments synced {payload} c.
Arguments entry {payload} path c.
Arguments empty_world {payload} capacity.
Arguments with_dicts {payload} w files meta.
Arguments with_calls {payload} w cs.
Arguments evicted {payload} w.
Arguments run_loads {payload} json_loads calls w.
Arguments run_results {payload} json_loads calls w.
Arguments needs_reload {payload} fs path c.
Arguments returned {payload} r.
Arguments counts {payload} c.
Arguments absent {payload} path w.
Arguments preserves {payload A} P m.

(** [a] comes before [b] in [l]. *)
Definition before {A : Type} (l : list A) (a b : A) : Prop :=
  exists l1 l2 l3, l = l1 ++ a :: l2 ++ b :: l3.

(** ** Worked inputs *)

Module Demo.
Local Open Scope string_scope.

(** A stand-in for [json.loads] that tells a text that parses from one that
    does not: every text stands for itself, except the unfinished object. *)
Definition loads (raw : string) : option string :=
  if String.eqb raw "{" then None else Some raw.

Definition file (mt : Z) (text : string) : File :=
  {| f_mtime := mt; f_read := Some text |}.

(** The file system with exactly the listed files. *)
Definition disk (l : list (string * File)) : FS := fun path => Dict.get path l.

(** Three configuration files. *)
Definition abc : FS :=
  disk [("a", file 10 "[1]"); ("b", file 20 "[2]"); ("c", file 30 "[3]")].

(** The same, after [c] was overwritten with a text that does not parse. *)
Definition broken_c : FS :=
  disk [("a", file 10 "[1]"); ("b", file 20 "[2]"); ("c", file 30 "{")].

(** The same, after [b] was overwritten with a text that does not parse. *)
Definition broken_b : FS :=
  disk [("a", file 10 "[1]"); ("b", file 21 "{"); ("c", file 30 "[3]")].

(** The same, after [b] was rewritten. *)
Definition new_b : FS :=
  disk [("a", file 10 "[1]"); ("b", file 21 "[2, 2]"); ("c", file 30 "[3]")].

(** The same, after [b] was deleted. *)
Definition no_b : FS := disk [("a", file 10 "[1]"); ("c", file 30 "[3]")].

(** The calls of the scenario of the specification. *)
Definition scenario : list (FS * string) :=
  [(abc, "a"); (abc, "a"); (abc, "b"); (abc, "c"); (abc, "b")].

(** A full cache of capacity 2: [a] with count 2, then [b] with count 1. *)
Definition full : World string :=
  run_loads loads [(abc, "a"); (abc, "a"); (abc, "b")] (empty_world 2).

End Demo.

(** ** The rest of the package: what it takes from Python and the system *)

From Stdlib Require Import Ascii.

(** The exceptions raised outside the cache: one of the cache, or one of the
    named Python exceptions. *)
Inductive pyexn :=
| FromCache (e : exn)
| ValueError
| IndexError
| OtherError (name : string).

Inductive outcome (A : Type) :=
| Return (a : A)
| Throw (e : pyexn).
Arguments Return {A} a.
Arguments Throw {A} e.

(** [l[i]]: a negative index counts from the end, [None] is [IndexError]. *)
Definition list_getitem {A} (l : list A) (i : Z) : option A :=
  let n := Z.of_nat (List.length l) in
  let j := if i <? 0 then i + n else i in
  if (j <? 0) || (j >=? n) then None else nth_error l (Z.to_nat j).

(** [s.endswith(suffix)] *)
Definition endswith (s suffix : string) : bool :=
  let n := String.length s in
  let m := String.length suffix in
  (m <=? n)%nat && String.eqb (String.substring (n - m) m s) suffix.

(** [s.startswith(prefix)] *)
Definition startswith (s prefix : string) : bool := String.prefix prefix s.

(** [open(path, "w")] and one write of [text]: the file exists afterwards,
    holds [text] and carries the time of the write. *)
Definition write_file (path text : string) (now : Z) (fs : FS) : FS :=
  fun p =>
    if String.eqb p path
    then Some {| f_mtime := now; f_read := Some text |}
    else fs p.

(** ** [ldx.core.utils.json] *)

Section JsonUtils.
Variable payload : Type.
(** [json.load] of a text, and [json.dump(data, f, indent=4,
    ensure_ascii=False)] as the text it writes. *)
Variable json_loads : string -> option payload.
Variable json_dumps : payload -> string.
(** The paths [open(path, "w")] can open. *)
Variable writable : string -> bool.

(** [with open(path, "w", ...) as f: json.dump(data, f, ...)] at time [now] *)
Definition dump_to (path : string) (data : payload) (now : Z) (fs : FS)
    : result unit * FS :=
  if writable path
  then (Ok tt, write_file path (json_dumps data) now fs)
  else (Raise OSError, fs).

(** [with open(path, "r", ...) as f: data = json.load(f)] *)
Definition load_from (path : string) (fs : FS) : result payload :=
  match fs path with
  | Some f =>
      match f_read f with
      | Some raw =>
          match json_loads raw with
          | Some data => Ok data
          | None => Raise JSONDecodeError
          end
      | None => Raise OSError
      end
  | None => Raise OSError
  end.

Definition touch_json (path : string) (default_data : payload) (now : Z)
    (fs : FS) : result payload * FS :=
  let created :=
    match fs path with
    | None => dump_to path default_data now fs
    | Some _ => (Ok tt, fs)
    end in
  match created with
  | (Ok _, fs') => (load_from path fs', fs')
  | (Raise e, fs') => (Raise e, fs')
  end.

Definition save_json (path : string) (data : payload) (now : Z) (fs : FS)
    : result unit * FS :=
  dump_to path data now fs.

End JsonUtils.

Arguments dump_to {payload} json_dumps writable path data now fs.
Arguments load_from {payload} json_loads path fs.
Arguments touch_json {payload} json_loads json_dumps writable
  path default_data now fs.
Arguments save_json {payload} json_dumps writable path data now fs.

(** ** [ldpx.core.objs.attr] *)

Module LDAttr.
Local Open Scope string_scope.

(** The fields of the dataclass that the paths depend on. *)
Record t := { path : string; validate : bool }.

Section Paths.
Variable os_path_join : string -> string -> string.

Definition vmfolder (self : t) : string := os_path_join (path self) "vms".

Definition customizeConfigs (self : t) : string :=
  os_path_join (vmfolder self) "customizeConfigs".

Definition recommendedConfigs (self : t) : string :=
  os_path_join (vmfolder self) "recommendConfigs".

Definition config (self : t) : string :=
  os_path_join (vmfolder self) "config".
End Paths.

(** [LDAttr.from_user]; [paths] is [LD_CONFIG["path"]] and [init] the
    construction [LDAttr(path)], which validates the installation. *)
Definition from_user (paths : list string) (init : string -> outcome t)
    (index : Z) : outcome t :=
  if match paths with [] => true | _ => false end
     || (index >=? Z.of_nat (List.length paths))
  then Throw ValueError
  else
    match list_getitem paths index with
    | Some p => init p
    | None => Throw IndexError
    end.

End LDAttr.

(** ** [ldx.ext.obj.leidian] and [ldpx.ext.obj.smp] *)

(** [id_or_name : Union[int, str]] *)
Inductive id_or_name :=
| IdInt (n : Z)
| IdStr (s : string).

Section Managers.
Local Open Scope string_scope.
Variable payload : Type.
Variable json_loads : string -> option payload.
(** [json.dump(data, f, indent=4)] as the text it writes. *)
Variable json_dumps : payload -> string.
Variable writable : string -> bool.
Variable os_path_join : string -> string -> string.

(** The models [LeidiansConfig] and [LeidianConfig] with their conversions,
    which rest on [parse_dotted_dict] and [flatten_nested_dict]. *)
Variable LeidiansConfig : Type.
Variable LeidiansConfig_from_dict : option payload -> outcome LeidiansConfig.
Variable LeidiansConfig_to_dict : LeidiansConfig -> payload.
Variable LeidianConfig : Type.
Variable LeidianConfig_from_dict : option payload -> outcome LeidianConfig.

(** Python's [str.isdigit] on one character, [int(s)] and [str(n)]. *)
Variable isdigit_char : Ascii.ascii -> bool.
Variable py_int : string -> outcome Z.
Variable py_str : Z -> string.

(** [s.isdigit()]: at least one character and digits only *)
Definition isdigit (s : string) : bool :=
  negb (String.eqb s "") && forallb isdigit_char (list_ascii_of_string s).

(** [raw = self._loadFile(path); return from_dict(raw)] *)
Definition load_as {C} (from_dict : option payload -> outcome C)
    (fs : FS) (path : string) (w : World payload)
    : outcome C * World payload :=
  match _loadFile json_loads fs path w with
  | (Ok raw, w') => (from_dict raw, w')
  | (Raise e, w') => (Throw (FromCache e), w')
  end.

Definition getLeidiansConfig (self : LDAttr.t) (fs : FS) (w : World payload)
    : outcome LeidiansConfig * World payload :=
  let path := os_path_join (LDAttr.config os_path_join self) "leidians.config" in
  load_as LeidiansConfig_from_dict fs path w.

Definition getLeidianConfig (self : LDAttr.t) (id : id_or_name) (fs : FS)
    (w : World payload) : outcome LeidianConfig * World payload :=
  let converted :=
    match id with
    | IdStr s =>
        if isdigit s then
          match py_int s with
          | Return n => Return (IdInt n)
          | Throw e => Throw e
          end
        else Return id
    | IdInt _ => Return id
    end in
  match converted with
  | Throw e => (Throw e, w)
  | Return id =>
      let cfg := LDAttr.config os_path_join self in
      let path :=
        match id with
        | IdStr s =>
            if startswith s "leidian"
            then os_path_join cfg (s ++ ".config")
            else os_path_join cfg ("leidian" ++ s ++ ".config")
        | IdInt n => os_path_join cfg ("leidian" ++ py_str n ++ ".config")
        end in
      load_as LeidianConfig_from_dict fs path w
  end.

(** [dumpLeidiansConfig]: the file is written directly, at time [now]. *)
Definition dumpLeidiansConfig (self : LDAttr.t) (config : LeidiansConfig)
    (now : Z) (fs : FS) : result unit * FS :=
  let path := os_path_join (LDAttr.config os_path_join self) "leidians.config" in
  dump_to json_dumps writable path (LeidiansConfig_to_dict config) now fs.

(** [LeidianFile.loadLeidiansConfig]: a read that does not use the cache. *)
Definition loadLeidiansConfig (path : string) (fs : FS)
    : outcome LeidiansConfig :=
  match load_from json_loads path fs with
  | Ok data => LeidiansConfig_from_dict (Some data)
  | Raise e => Throw (FromCache e)
  end.

(** [SMPFile.getCustomize] and [SMPFile.getRecommended]; [loadFile] is the
    [_loadFile] that [SMPFile] inherits. *)
Section SMP.
Context {R : Type}.
Variable loadFile : string -> R.

Definition getCustomize (self : LDAttr.t) (name : string) : R :=
  let name := if negb (endswith name ".smp") then name ++ ".smp" else name in
  let path := os_path_join (LDAttr.customizeConfigs os_path_join self) name in
  loadFile path.

Definition getRecommended (self : LDAttr.t) (name : string) : R :=
  let name := if negb (endswith name ".smp") then name ++ ".smp" else name in
  let path := os_path_join (LDAttr.recommendedConfigs os_path_join self) name in
  loadFile path.
End SMP.

(** The cached payload of the path, if any, is what the file holds now. *)
Definition coherent (fs : FS) (path : string) (c : AttrMeta payload) : Prop :=
  forall v f,
    Dict.get path (_opened_files c) = Some v -> fs path = Some f ->
    exists raw, f_read f = Some raw /\ json_loads raw = Some v.

(** The path is cached with an access count of 1 and every other entry has
    been served at least once more. *)
Definition lone_minimum (path : string) (c : AttrMeta payload) : Prop :=
  exists m,
    Dict.get path (_opened_meta c) = Some m /\ ac m = 1 /\
    forall item, In item (_opened_meta c) -> fst item <> path ->
                 2 <= ac (snd item).

End Managers.

Arguments isdigit isdigit_char s : assert.
Arguments load_as {payload} json_loads {C} from_dict fs path w.
Arguments getLeidiansConfig {payload} json_loads os_path_join
  {LeidiansConfig} LeidiansConfig_from_dict self fs w.
Arguments getLeidianConfig {payload} json_loads os_path_join
  {LeidianConfig} LeidianConfig_from_dict isdigit_char py_int py_str
  self id fs w.
Arguments dumpLeidiansConfig {payload} json_dumps writable os_path_join
  {LeidiansConfig} LeidiansConfig_to_dict self config now fs.
Arguments loadLeidiansConfig {payload} json_loads
  {LeidiansConfig} LeidiansConfig_from_dict path fs.
Arguments getCustomize os_path_join {R} loadFile self name.
Arguments getRecommended os_path_join {R} loadFile self name.
Arguments coherent {payload} json_loads fs path c.
Arguments lone_minimum {payload} path c.

(** ** Worked inputs for the managers *)

From Stdlib Require DecimalString.

Module Site.
Local Open Scope string_scope.

(** The text [json.dump] writes for a value of the stand-in parser. *)
Definition dumps (v : string) : string := v.

Definition writable (path : string) : bool := true.

Definition join (a b : string) : string := a ++ "/" ++ b.

Definition install : LDAttr.t :=
  {| LDAttr.path := "C:/LDPlayer"; LDAttr.validate := false |}.

(** A model that keeps the parsed value as it is and refuses [None]. *)
Definition from_dict (raw : option string) : outcome string :=
  match raw with
  | Some v => Return v
  | None => Throw (OtherError "TypeError")
  end.

Definition to_dict (config : string) : string := config.

Definition isdigit_char (c : ascii) : bool :=
  ((48 <=? nat_of_ascii c) && (nat_of_ascii c <=? 57))%nat.

Definition int (s : string) : outcome Z :=
  match DecimalString.NilZero.uint_of_string s with
  | Some u => Return (Z.of_uint u)
  | None => Throw ValueError
  end.

Definition str (n : Z) : string :=
  DecimalString.NilZero.string_of_int (Z.to_int n).

(** The file [leidians.config] of the installation. *)
Definition leidians : string := "C:/LDPlayer/vms/config/leidians.config".

(** A disk on which it was written at time 7. *)
Definition disk7 : FS := Demo.disk [(leidians, Demo.file 7 "[7]")].

(** The cache after that file was loaded. *)
Definition loaded : World string :=
  run_loads Demo.loads [(disk7, leidians)] (empty_world 2).

(** The three files after [a] was rewritten. *)
Definition new_a : FS :=
  Demo.disk [("a", Demo.file 11 "[1, 1]"); ("b", Demo.file 20 "[2]");
             ("c", Demo.file 30 "[3]")].

(** A cache of capacity 0 after a load of [a]. *)
Definition unbounded : World string :=
  run_loads Demo.loads [(Demo.abc, "a")] (empty_world 0).

(** A cache of capacity 2 that holds [a] only. *)
Definition half : World string :=
  run_loads Demo.loads [(Demo.abc, "a")] (empty_world 2).

End Site.

(** * Facts about the dictionaries *)

Module DictFacts.
Section Facts.
Context {V : Type}.
Implicit Types (d : Dict.t V) (k : string) (v : V).

Lemma contains_In k d : Dict.contains k d = true <-> In k (Dict.keys d).
Proof.
  unfold Dict.contains. rewrite existsb_exists. split.
  - intros (x & Hx & E). apply String.eqb_eq in E. now subst.
  - intros H. exists k. split; [assumption | apply String.eqb_refl].
Qed.

Lemma contains_false k d : Dict.contains k d = false <-> ~ In k (Dict.keys d).
Proof.
  rewrite <- contains_In. destruct (Dict.contains k d); split; congruence.
Qed.

Lemma contains_keys {W} k d (d' : Dict.t W) :
  Dict.keys d = Dict.keys d' -> Dict.contains k d = Dict.contains k d'.
Proof. unfold Dict.contains. now intros ->. Qed.

Lemma get_None k d : Dict.get k d = None <-> ~ In k (Dict.keys d).
Proof.
  induction d as [|[k' v'] r IH]; simpl.
  - tauto.
  - destruct (String.eqb_spec k k') as [->|N].
    + split; [discriminate | intros H; exfalso; apply H; now left].
    + rewrite IH. split; [intros H [E|I]; [congruence | tauto] | tauto].
Qed.

Lemma get_contains k d :
  Dict.contains k d = true <-> exists v, Dict.get k d = Some v.
Proof.
  rewrite contains_In. split.
  - intros I. destruct (Dict.get k d) as [v|] eqn:E; [now exists v |].
    apply get_None in E. contradiction.
  - intros [v E]. destruct (in_dec string_dec k (Dict.keys d)) as [I|N];
      [assumption |]. apply get_None in N. congruence.
Qed.

Lemma get_In k d v : Dict.get k d = Some v -> In (k, v) d.
Proof.
  induction d as [|[k' v'] r IH]; simpl; [discriminate |].
  destruct (String.eqb_spec k k') as [->|N].
  - intros [= ->]. now left.
  - intros H. right. now apply IH.
Qed.

Lemma In_get k d v : Dict.wf d -> In (k, v) d -> Dict.get k d = Some v.
Proof.
  unfold Dict.wf. induction d as [|[k' v'] r IH]; simpl; [tauto |].
  intros W [E|I].
  - injection E as -> ->. now rewrite String.eqb_refl.
  - inversion_clear W as [|? ? N W'].
    destruct (String.eqb_spec k k') as [->|_].
    + exfalso. apply N. apply (in_map fst) in I. exact I.
    + now apply IH.
Qed.

Lemma get_set_same k v d : Dict.get k (Dict.set k v d) = Some v.
Proof.
  induction d as [|[k' v'] r IH]; simpl.
  - now rewrite String.eqb_refl.
  - destruct (String.eqb_spec k k') as [->|N]; simpl.
    + now rewrite String.eqb_refl.
    + destruct (String.eqb_spec k k'); [contradiction | exact IH].
Qed.

Lemma get_set_other k k' v d :
  k <> k' -> Dict.get k' (Dict.set k v d) = Dict.get k' d.
Proof.
  intros N. induction d as [|[k0 v0] r IH]; simpl.
  - destruct (String.eqb_spec k' k); [congruence | reflexivity].
  - destruct (String.eqb_spec k k0) as [->|N0]; simpl.
    + destruct (String.eqb_spec k' k0); [congruence | reflexivity].
    + now rewrite IH.
Qed.

Lemma keys_set k v d :
  Dict.keys (Dict.set k v d) =
  if Dict.contains k d then Dict.keys d else Dict.keys d ++ [k].
Proof.
  unfold Dict.contains. induction d as [|[k' v'] r IH]; simpl; [reflexivity |].
  destruct (String.eqb_spec k k') as [->|N]; simpl; [reflexivity |].
  rewrite IH. now destruct (existsb (String.eqb k) (Dict.keys r)).
Qed.

Lemma set_new k v d : ~ In k (Dict.keys d) -> Dict.set k v d = d ++ [(k, v)].
Proof.
  induction d as [|[k' v'] r IH]; simpl; [reflexivity |].
  intros N. destruct (String.eqb_spec k k') as [->|_].
  - exfalso. apply N. now left.
  - rewrite IH; [reflexivity | tauto].
Qed.

Lemma length_set k v d :
  (List.length (Dict.set k v d) <= S (List.length d))%nat.
Proof.
  induction d as [|[k' v'] r IH]; simpl; [lia |].
  destruct (String.eqb k k'); simpl; lia.
Qed.

Lemma wf_set k v d : Dict.wf d -> Dict.wf (Dict.set k v d).
Proof.
  unfold Dict.wf. rewrite keys_set. intros W.
  destruct (Dict.contains k d) eqn:C; [assumption |].
  apply contains_false in C.
  apply NoDup_rev in W. rewrite <- (rev_involutive (_ ++ _)).
  apply NoDup_rev. rewrite rev_app_distr. simpl. constructor; [|assumption].
  now rewrite <- in_rev.
Qed.

Lemma keys_remove_all ks d :
  Dict.keys (Dict.remove_all ks d) =
  filter (fun k => negb (existsb (String.eqb k) ks)) (Dict.keys d).
Proof.
  unfold Dict.remove_all, Dict.keys.
  induction d as [|[k v] r IH]; simpl; [reflexivity |].
  destruct (existsb (String.eqb k) ks); simpl; now rewrite IH.
Qed.

Lemma keys_remove k d :
  Dict.keys (Dict.remove k d) =
  filter (fun k' => negb (String.eqb k k')) (Dict.keys d).
Proof.
  unfold Dict.remove, Dict.keys.
  induction d as [|[k' v] r IH]; simpl; [reflexivity |].
  destruct (String.eqb k k'); simpl; now rewrite IH.
Qed.

Lemma remove_absent k d : ~ In k (Dict.keys d) -> Dict.remove k d = d.
Proof.
  unfold Dict.remove. induction d as [|[k' v] r IH]; simpl; [reflexivity |].
  intros N. destruct (String.eqb_spec k k') as [->|_]; simpl.
  - exfalso. apply N. now left.
  - rewrite IH; [reflexivity | tauto].
Qed.

Lemma remove_not_In k d : ~ In k (Dict.keys (Dict.remove k d)).
Proof.
  rewrite keys_remove, filter_In. intros [_ H].
  now rewrite String.eqb_refl in H.
Qed.

Lemma get_remove_same k d : Dict.get k (Dict.remove k d) = None.
Proof. apply get_None, remove_not_In. Qed.

Lemma get_remove_other k k' d :
  k <> k' -> Dict.get k' (Dict.remove k d) = Dict.get k' d.
Proof.
  intros N. unfold Dict.remove.
  induction d as [|[k0 v0] r IH]; simpl; [reflexivity |].
  destruct (String.eqb_spec k k0) as [->|N0]; simpl.
  - destruct (String.eqb_spec k' k0); [congruence | exact IH].
  - now rewrite IH.
Qed.

Lemma wf_remove k d : Dict.wf d -> Dict.wf (Dict.remove k d).
Proof. unfold Dict.wf. rewrite keys_remove. apply NoDup_filter. Qed.

Lemma wf_remove_all ks d : Dict.wf d -> Dict.wf (Dict.remove_all ks d).
Proof. unfold Dict.wf. rewrite keys_remove_all. apply NoDup_filter. Qed.

Lemma length_remove k d :
  Dict.wf d -> In k (Dict.keys d) ->
  S (List.length (Dict.remove k d)) = List.length d.
Proof.
  unfold Dict.wf. induction d as [|[k' v] r IH]; simpl; [tauto |].
  intros W I. inversion_clear W as [|? ? N W'].
  destruct (String.eqb_spec k k') as [->|N']; simpl.
  - fold (Dict.remove k' r). now rewrite remove_absent.
  - f_equal. apply IH; [assumption |]. destruct I; [congruence | assumption].
Qed.

Lemma length_remove_le k d :
  (List.length (Dict.remove k d) <= List.length d)%nat.
Proof. apply filter_length_le. Qed.

Lemma remove_all_nil d : Dict.remove_all [] d = d.
Proof.
  unfold Dict.remove_all. induction d as [|kv r IH]; simpl in *; congruence.
Qed.

Lemma remove_all_cons k ks d :
  Dict.remove_all (k :: ks) d = Dict.remove_all ks (Dict.remove k d).
Proof.
  unfold Dict.remove_all, Dict.remove.
  induction d as [|kv r IH]; [reflexivity |].
  assert (E : negb (existsb (String.eqb (fst kv)) (k :: ks)) =
              negb (String.eqb k (fst kv)) &&
              negb (existsb (String.eqb (fst kv)) ks))
    by (simpl; rewrite (String.eqb_sym (fst kv) k); apply negb_orb).
  cbn [filter]. rewrite E, IH.
  destruct (String.eqb k (fst kv)); reflexivity.
Qed.

Lemma length_remove_all ks d :
  Dict.wf d -> NoDup ks -> incl ks (Dict.keys d) ->
  (List.length (Dict.remove_all ks d) + List.length ks = List.length d)%nat.
Proof.
  revert d. induction ks as [|k ks IH]; intros d W ND I.
  - rewrite remove_all_nil. simpl. lia.
  - rewrite remove_all_cons. inversion_clear ND as [|? ? N ND'].
    assert (In k (Dict.keys d)) by (apply I; now left).
    pose proof (length_remove k d W H) as L.
    specialize (IH (Dict.remove k d) (wf_remove k d W) ND').
    simpl. rewrite <- L. rewrite <- IH; [lia |].
    intros x Hx. rewrite keys_remove, filter_In. split.
    + apply I. now right.
    + destruct (String.eqb_spec k x); [subst; contradiction | reflexivity].
Qed.

Lemma get_remove_all k ks d :
  Dict.get k (Dict.remove_all ks d) =
  if existsb (String.eqb k) ks then None else Dict.get k d.
Proof.
  unfold Dict.remove_all. induction d as [|[k' v'] r IH]; cbn [filter fst].
  - now destruct (existsb _ ks).
  - change (Dict.get k ((k', v') :: r))
      with (if String.eqb k k' then Some v' else Dict.get k r).
    destruct (existsb (String.eqb k') ks) eqn:E; cbn [negb].
    + rewrite IH.
      destruct (String.eqb_spec k k') as [->|N]; [now rewrite E | reflexivity].
    + cbn [Dict.get].
      destruct (String.eqb_spec k k') as [->|N]; [now rewrite E | exact IH].
Qed.

Lemma set_same k v d : Dict.get k d = Some v -> Dict.set k v d = d.
Proof.
  induction d as [|[k' v'] r IH]; simpl; [discriminate |].
  destruct (String.eqb_spec k k') as [->|N].
  - now intros [= ->].
  - intros G. now rewrite IH.
Qed.

Lemma set_set k v1 v2 d :
  Dict.set k v2 (Dict.set k v1 d) = Dict.set k v2 d.
Proof.
  induction d as [|[k' v'] r IH]; simpl.
  - now rewrite String.eqb_refl.
  - destruct (String.eqb_spec k k') as [->|N]; simpl.
    + now rewrite String.eqb_refl.
    + destruct (String.eqb_spec k k'); [contradiction | now rewrite IH].
Qed.

End Facts.
End DictFacts.

Arguments Dict.contains : simpl never.
Arguments Dict.remove : simpl never.
Arguments Dict.remove_all : simpl never.

(** * Facts about [sorted] and slices *)

Section BeforeFacts.
Context {A : Type}.
Implicit Types (l : list A) (a b x : A).

Lemma before_In l a b : before l a b -> In a l /\ In b l.
Proof.
  intros (l1 & l2 & l3 & ->). split.
  - apply in_or_app. right. now left.
  - apply in_or_app. right. right. apply in_or_app. right. now left.
Qed.

Lemma before_head x l b : In b l -> before (x :: l) x b.
Proof.
  intros I. apply in_split in I as (l2 & l3 & ->). now exists [], l2, l3.
Qed.

Lemma before_cons x l a b : before l a b -> before (x :: l) a b.
Proof. intros (l1 & l2 & l3 & ->). now exists (x :: l1), l2, l3. Qed.

Lemma before_cons_inv x l a b :
  before (x :: l) a b -> (a = x /\ In b l) \/ before l a b.
Proof.
  intros (l1 & l2 & l3 & E). destruct l1 as [|y l1]; simpl in E.
  - injection E as -> ->. left. split; [reflexivity |].
    apply in_or_app. right. now left.
  - injection E as -> ->. right. now exists l1, l2, l3.
Qed.

Lemma before_nil a b : ~ before (@nil A) a b.
Proof. intros (l1 & l2 & l3 & E). now destruct l1. Qed.

Lemma In_firstn n l a : In a (firstn n l) -> In a l.
Proof.
  intros I. rewrite <- (firstn_skipn n l). apply in_or_app. now left.
Qed.

(** An element of a prefix comes before every element outside of it. *)
Lemma before_firstn n l a b :
  In a (firstn n l) -> In b l -> ~ In b (firstn n l) -> before l a b.
Proof.
  intros Ia Ib Nb. rewrite <- (firstn_skipn n l) in Ib.
  apply in_app_or in Ib as [Ib|Ib]; [contradiction |].
  apply in_split in Ia as (l1 & l2 & Ea).
  apply in_split in Ib as (l3 & l4 & Eb).
  exists l1, (l2 ++ l3), l4.
  rewrite <- (firstn_skipn n l) at 1. rewrite Ea, Eb.
  rewrite <- app_assoc. simpl. now rewrite <- app_assoc.
Qed.
End BeforeFacts.

Section SortedFacts.
Context {A : Type}.
Variable key : A -> Z.
Implicit Types (l : list A) (a b x : A).

Lemma insert_by_perm x l : Permutation (insert_by key x l) (x :: l).
Proof.
  induction l as [|y r IH]; simpl; [reflexivity |].
  destruct (key x <=? key y); [reflexivity |].
  rewrite IH. apply perm_swap.
Qed.

Lemma sorted_perm l : Permutation (sorted key l) l.
Proof.
  induction l as [|x r IH]; simpl; [reflexivity |].
  rewrite insert_by_perm. now constructor.
Qed.

Lemma length_sorted l : List.length (sorted key l) = List.length l.
Proof. apply Permutation_length, sorted_perm. Qed.

(** Where the pairs of [insert_by x s] come from, for an ascending [s]. *)
Lemma insert_by_before x s a b :
  (forall a b, before s a b -> key a <= key b) ->
  before (insert_by key x s) a b ->
  (a = x /\ In b s /\ key x <= key b) \/
  (b = x /\ In a s /\ key a < key x) \/
  before s a b.
Proof.
  induction s as [|y r IH]; simpl; intros Asc B.
  - apply before_cons_inv in B as [[_ []]|B]. now apply before_nil in B.
  - destruct (Z.leb_spec (key x) (key y)) as [L|G].
    + apply before_cons_inv in B as [[-> I]|B]; [|now right; right].
      left. repeat split; [assumption |].
      destruct I as [<-|I]; [assumption |].
      specialize (Asc y b (before_head y r b I)). lia.
    + apply before_cons_inv in B as [[-> I]|B].
      * apply (Permutation_in _ (insert_by_perm x r)) in I.
        destruct I as [<-|I].
        -- right. left. repeat split; [now left | assumption].
        -- right. right. now apply before_head.
      * apply IH in B as [(-> & I & L)|[(-> & I & L)|B]].
        -- left. repeat split; [now right | assumption].
        -- right. left. repeat split; [now right | assumption].
        -- right. right. now apply before_cons.
        -- intros a' b' B'. apply Asc. now apply before_cons.
Qed.

(** [sorted] is ascending in the key and keeps equal keys in their order:
    the order of the result is the key order, then the order of the input. *)
Lemma sorted_before l a b :
  before (sorted key l) a b ->
  key a < key b \/ (key a = key b /\ before l a b).
Proof.
  revert a b. induction l as [|x r IH]; simpl; intros a b B.
  - now apply before_nil in B.
  - apply insert_by_before in B as [(-> & I & L)|[(-> & I & L)|B]].
    + apply (Permutation_in _ (sorted_perm r)) in I.
      destruct (Z.eq_dec (key x) (key b)) as [E|N]; [|left; lia].
      right. split; [assumption | now apply before_head].
    + now left.
    + apply IH in B as [L|[E B]]; [now left |].
      right. split; [assumption | now apply before_cons].
    + intros a' b' B'. apply IH in B'. lia.
Qed.

(** In a list without repetition no two elements come before each other. *)
Lemma before_asym l a b : NoDup l -> before l a b -> before l b a -> False.
Proof.
  induction l as [|x r IH]; intros ND Bab Bba.
  - now apply before_nil in Bab.
  - inversion_clear ND as [|? ? N ND'].
    apply before_cons_inv in Bab as [[-> Ib]|Bab];
      apply before_cons_inv in Bba as [[-> Ia]|Bba].
    + contradiction.
    + apply before_In in Bba as [_ Ix]. contradiction.
    + apply before_In in Bab as [_ Ix]. contradiction.
    + now apply IH.
Qed.

(** Two arrangements of the same elements along one antisymmetric order are
    the same list. *)
Lemma ordered_unique (R : A -> A -> Prop) l1 l2 :
  (forall a b : A, {a = b} + {a <> b}) ->
  (forall a b, R a b -> R b a -> False) ->
  Permutation l1 l2 ->
  (forall a b, before l1 a b -> R a b) ->
  (forall a b, before l2 a b -> R a b) ->
  l1 = l2.
Proof.
  intros dec Asym. revert l2.
  induction l1 as [|x r IH]; intros l2 Pm O1 O2.
  - apply Permutation_nil in Pm. now subst.
  - destruct l2 as [|y r2].
    { apply Permutation_sym, Permutation_nil in Pm. discriminate. }
    destruct (dec x y) as [<-|N].
    + f_equal. apply IH.
      * now apply Permutation_cons_inv in Pm.
      * intros a b B. now apply O1, before_cons.
      * intros a b B. now apply O2, before_cons.
    + exfalso. apply (Asym x y).
      * apply O1, before_head.
        assert (I : In y (x :: r))
          by (apply (Permutation_in _ (Permutation_sym Pm)); now left).
        destruct I as [E|I]; [congruence | exact I].
      * apply O2, before_head.
        assert (I : In x (y :: r2)) by (apply (Permutation_in _ Pm); now left).
        destruct I as [E|I]; [congruence | exact I].
Qed.

(** The result of [sorted] does not depend on the sorting algorithm: every
    ascending rearrangement that keeps equal keys in their order is it. *)
Lemma sorted_unique l l' :
  (forall a b : A, {a = b} + {a <> b}) ->
  NoDup l ->
  Permutation l' l ->
  (forall a b, before l' a b -> key a <= key b) ->
  (forall a b, before l' a b -> key a = key b -> before l a b) ->
  l' = sorted key l.
Proof.
  intros dec ND Pm Asc Stable.
  apply (ordered_unique
           (fun a b => key a < key b \/ (key a = key b /\ before l a b)));
    [exact dec | | | | ].
  - intros a b [L|[E B]] [L'|[E' B']]; try lia.
    exact (before_asym l a b ND B B').
  - rewrite Pm. apply Permutation_sym, sorted_perm.
  - intros a b B. specialize (Asc a b B).
    destruct (Z.eq_dec (key a) (key b)) as [E|N]; [|left; lia].
    right. split; [exact E | now apply Stable].
  - intros a b. apply sorted_before.
Qed.

Lemma slice_to_firstn n l :
  0 <= n -> slice_to n l = firstn (Z.to_nat n) l.
Proof.
  intros H. unfold slice_to. destruct (Z.ltb_spec n 0); [lia | reflexivity].
Qed.
End SortedFacts.

(** * The cache, one call at a time *)

Section CacheFacts.
Variable payload : Type.
Variable json_loads : string -> option payload.
Implicit Types (w : World payload) (c : AttrMeta payload) (path : string).

Local Abbreviation files w := (_opened_files (cache w)).
Local Abbreviation meta w := (_opened_meta (cache w)).
Local Abbreviation capacity w := (_total_cached (cache w)).

(** Projections out of explicit worlds, and nothing else. *)
Ltac proj :=
  cbn [cache trace _opened_files _opened_meta _total_cached mtime ac
       with_dicts with_calls returned fst snd] in *.

(** Linear arithmetic over dictionary sizes. *)
Ltac zlia := unfold Dict.len in *; lia.

Lemma with_dicts_same w : with_dicts w (files w) (meta w) = w.
Proof. now destruct w as [[fl mt cap] tr]. Qed.

(** ** The eviction loop *)

Lemma evict_loop_run (vs : list (string * FileMeta)) w :
  Dict.keys (files w) = Dict.keys (meta w) ->
  NoDup (map fst vs) ->
  incl (map fst vs) (Dict.keys (files w)) ->
  for_each vs (fun item => evict_one (fst item)) w =
  (Ok tt, with_dicts w (Dict.remove_all (map fst vs) (files w))
                       (Dict.remove_all (map fst vs) (meta w))).
Proof.
  revert w. induction vs as [|[k m] vs IH]; intros w K ND I.
  - simpl. unfold ret. now rewrite !DictFacts.remove_all_nil, with_dicts_same.
  - simpl in ND, I. inversion_clear ND as [|? ? N ND'].
    assert (Ik : In k (Dict.keys (files w))) by (apply I; now left).
    assert (Cf : Dict.contains k (files w) = true)
      by now apply DictFacts.contains_In.
    assert (Cm : Dict.contains k (meta w) = true)
      by (apply DictFacts.contains_In; now rewrite <- K).
    cbn [for_each map fst]. rewrite !DictFacts.remove_all_cons.
    unfold bind at 1. unfold evict_one, del_opened_files, del_opened_meta,
      bind, get_cache, Dict.del, put_files, put_meta.
    cbn [cache _opened_files _opened_meta _total_cached trace].
    rewrite Cf. cbn [cache _opened_files _opened_meta _total_cached trace].
    rewrite Cm. rewrite IH.
    + reflexivity.
    + cbn [cache _opened_files _opened_meta]. rewrite !DictFacts.keys_remove.
      now rewrite K.
    + assumption.
    + cbn [cache _opened_files _opened_meta]. intros x Hx.
      rewrite DictFacts.keys_remove, filter_In. split.
      * apply I. now right.
      * destruct (String.eqb_spec k x); [subst; contradiction | reflexivity].
Qed.

(** Under the guard of line 79 the slice is a prefix of the sorted items. *)
Lemma to_evict_firstn c :
  _total_cached c <= Dict.len (_opened_files c) ->
  to_evict c =
  firstn (Z.to_nat (Dict.len (_opened_files c) - _total_cached c + 1))
    (sorted (fun item => ac (snd item)) (_opened_meta c)).
Proof. intros G. unfold to_evict. apply slice_to_firstn. lia. Qed.

Lemma to_evict_incl c : incl (to_evict c) (_opened_meta c).
Proof.
  unfold to_evict, slice_to. intros x Hx.
  eapply Permutation_in; [apply sorted_perm |].
  destruct (_ <? 0); eapply In_firstn; exact Hx.
Qed.

Lemma to_evict_NoDup c :
  Dict.wf (_opened_meta c) -> NoDup (map fst (to_evict c)).
Proof.
  unfold to_evict, slice_to, Dict.wf, Dict.keys. intros W.
  set (s := sorted _ _).
  assert (NoDup (map fst s)) as NS.
  { eapply Permutation_NoDup; [|exact W].
    apply Permutation_map, Permutation_sym, sorted_perm. }
  destruct (_ <? 0).
  - rewrite <- (firstn_skipn (Z.to_nat (Z.of_nat (List.length s) +
      (Dict.len (_opened_files c) - _total_cached c + 1))) s), map_app in NS.
    eapply NoDup_app_remove_r, NS.
  - rewrite <- (firstn_skipn (Z.to_nat
      (Dict.len (_opened_files c) - _total_cached c + 1)) s), map_app in NS.
    eapply NoDup_app_remove_r, NS.
Qed.

Lemma synced_lengths c :
  synced c -> List.length (_opened_meta c) = List.length (_opened_files c).
Proof.
  intros [K _]. apply (f_equal (@List.length _)) in K.
  unfold Dict.keys in K. now rewrite !length_map in K.
Qed.

Lemma synced_wf_meta c : synced c -> Dict.wf (_opened_meta c).
Proof. intros [K W]. unfold Dict.wf. now rewrite <- K. Qed.

Lemma to_evict_length c :
  synced c -> 1 <= _total_cached c ->
  _total_cached c <= Dict.len (_opened_files c) ->
  Z.of_nat (List.length (to_evict c)) =
  Dict.len (_opened_files c) - _total_cached c + 1.
Proof.
  intros Hs P G. rewrite to_evict_firstn by assumption.
  unfold Dict.len in *. rewrite length_firstn, length_sorted, synced_lengths
    by assumption. lia.
Qed.

(** The outcome of lines 79-90 on a synced cache. *)
Lemma evict_run w : synced (cache w) -> evict w = (Ok tt, evicted w).
Proof.
  intros Hs. unfold evict, evicted, bind, get_cache.
  destruct (_ >=? _); [|reflexivity].
  apply evict_loop_run.
  - apply Hs.
  - apply to_evict_NoDup, synced_wf_meta, Hs.
  - destruct Hs as [K _]. rewrite K. apply incl_map, to_evict_incl.
Qed.

Lemma real_load_run fs path w :
  synced (cache w) ->
  __real_load__ json_loads fs path w =
  actual_load json_loads fs path (evicted w).
Proof.
  intros Hs. unfold __real_load__, bind. now rewrite evict_run.
Qed.

Lemma capacity_evicted w : capacity (evicted w) = capacity w.
Proof. unfold evicted. now destruct (_ >=? _). Qed.

Lemma trace_evicted w : trace (evicted w) = trace w.
Proof. unfold evicted. now destruct (_ >=? _). Qed.

Lemma synced_evicted w : synced (cache w) -> synced (cache (evicted w)).
Proof.
  intros Hs. unfold evicted. destruct (_ >=? _); [|assumption].
  destruct Hs as [K W]. split; proj.
  - now rewrite !DictFacts.keys_remove_all, K.
  - now apply DictFacts.wf_remove_all.
Qed.

(** Eviction leaves one free slot. *)
Lemma len_evicted w :
  synced (cache w) -> 1 <= capacity w ->
  Dict.len (files (evicted w)) =
  if Dict.len (files w) >=? capacity w then capacity w - 1
  else Dict.len (files w).
Proof.
  intros Hs P. unfold evicted.
  destruct (Z.geb_spec (Dict.len (files w)) (capacity w)) as [G|L];
    [|reflexivity].
  proj. pose proof (to_evict_length _ Hs P G) as LV.
  assert (LR := DictFacts.length_remove_all
    (map fst (to_evict (cache w))) (files w) (proj2 Hs)
    (to_evict_NoDup _ (synced_wf_meta _ Hs))).
  rewrite (proj1 Hs) in LR at 1.
  specialize (LR (incl_map fst (to_evict_incl _))).
  rewrite List.length_map in LR. unfold Dict.len in *. lia.
Qed.

(** ** Lines 94-103 *)

Lemma actual_load_run fs path w :
  actual_load json_loads fs path w =
  match fs path with
  | Some f =>
      match f_read f with
      | Some raw =>
          match json_loads raw with
          | Some data =>
              (Ok data,
               with_calls
                 (with_dicts w (Dict.set path data (files w))
                    (Dict.set path {| mtime := f_mtime f; ac := 1 |} (meta w)))
                 [SysOpenRead path; SysGetmtime path])
          | None => (Raise JSONDecodeError, with_calls w [SysOpenRead path])
          end
      | None => (Raise OSError, with_calls w [SysOpenRead path])
      end
  | None => (Raise OSError, with_calls w [SysOpenRead path])
  end.
Proof.
  unfold actual_load, open_read, json_loads_m, set_opened_files,
    set_opened_meta, os_path_getmtime, bind, syscall_log, get_cache,
    put_files, put_meta, ret, raise, with_calls, with_dicts.
  destruct (fs path) as [f|] eqn:Hf; cbn; [|reflexivity].
  destruct (f_read f) as [raw|]; cbn; [|reflexivity].
  destruct (json_loads raw) as [data|]; cbn; [|reflexivity].
  now rewrite <- app_assoc.
Qed.

(** ** The three ways through [_loadFile] *)

(** Lines 122-127: the file is gone. *)
Lemma loadFile_missing fs path w :
  fs path = None ->
  _loadFile json_loads fs path w =
  (Ok None,
   with_calls
     (with_dicts w (Dict.remove path (files w)) (Dict.remove path (meta w)))
     [SysExists path]).
Proof.
  intros Hf. destruct w as [[fl mt cap] tr].
  unfold _loadFile, os_path_exists, del_opened_files, del_opened_meta,
    Dict.del, bind, syscall_log, get_cache, put_files, put_meta, ret, raise,
    with_calls, with_dicts.
  rewrite Hf. cbn.
  destruct (Dict.contains path fl) eqn:Cf;
    destruct (Dict.contains path mt) eqn:Cm;
    do 4 (cbn; rewrite ?Cf, ?Cm);
    try apply DictFacts.contains_false in Cf;
    try apply DictFacts.contains_false in Cm;
    repeat match goal with
      | H : ~ In path (Dict.keys ?d) |- _ =>
          rewrite (DictFacts.remove_absent path d H); clear H
      end;
    reflexivity.
Qed.

(** Lines 129-131: the cached value is served. *)
Lemma loadFile_hit fs path w f v m :
  fs path = Some f ->
  Dict.get path (files w) = Some v ->
  Dict.get path (meta w) = Some m ->
  mtime m = f_mtime f ->
  _loadFile json_loads fs path w =
  (Ok (Some v),
   with_calls
     (with_dicts w (files w)
        (Dict.set path {| mtime := mtime m; ac := ac m + 1 |} (meta w)))
     [SysExists path; SysGetmtime path]).
Proof.
  intros Hf Gf Gm E.
  assert (Cf : Dict.contains path (files w) = true)
    by (apply DictFacts.get_contains; now exists v).
  unfold _loadFile, os_path_exists, is_fresh, os_path_getmtime, bump_ac,
    getitem_opened_files, bind, syscall_log, get_cache, put_files, put_meta,
    ret, raise, with_calls, with_dicts.
  do 6 (cbn; rewrite ?Hf, ?Cf, ?Gm, ?Gf, ?E, ?Z.eqb_refl).
  now rewrite <- app_assoc.
Qed.

(** Line 133: everything else goes to [__real_load__]. *)
Lemma loadFile_reload fs path w :
  needs_reload fs path (cache w) ->
  _loadFile json_loads fs path w =
  returned
    (__real_load__ json_loads fs path
       (with_calls w
          (SysExists path ::
           if Dict.contains path (files w) then [SysGetmtime path] else []))).
Proof.
  intros (f & Hf & R).
  unfold _loadFile, os_path_exists, is_fresh, os_path_getmtime,
    bind, syscall_log, get_cache, ret, raise, with_calls, returned.
  rewrite Hf. cbn -[__real_load__].
  destruct (Dict.contains path (files w)) eqn:Cf; cbn -[__real_load__].
  - destruct R as [R|R]; [discriminate |].
    apply Z.eqb_neq in R. rewrite R. rewrite <- app_assoc. cbn -[__real_load__].
    now destruct (__real_load__ _ _ _ _) as [[d|e] w'].
  - now destruct (__real_load__ _ _ _ _) as [[d|e] w'].
Qed.

(** A call is one of the three. *)
Lemma loadFile_cases fs path w :
  synced (cache w) ->
  fs path = None \/
  (exists f v m, fs path = Some f /\ Dict.get path (files w) = Some v /\
     Dict.get path (meta w) = Some m /\ mtime m = f_mtime f) \/
  needs_reload fs path (cache w).
Proof.
  intros [K _]. unfold needs_reload.
  destruct (fs path) as [f|] eqn:Hf; [right | now left].
  destruct (Dict.contains path (files w)) eqn:Cf.
  - pose proof Cf as Cm. rewrite (DictFacts.contains_keys _ _ _ K) in Cm.
    apply DictFacts.get_contains in Cf as [v Gf].
    apply DictFacts.get_contains in Cm as [m Gm].
    destruct (Z.eq_dec (mtime m) (f_mtime f)) as [E|N].
    + left. now exists f, v, m.
    + right. exists f. split; [reflexivity |]. right. now rewrite Gm.
  - right. exists f. split; [reflexivity | now left].
Qed.

(** ** What every call preserves *)

Lemma synced_set path (data : payload) (m : FileMeta) c :
  synced c ->
  synced {| _opened_files := Dict.set path data (_opened_files c);
            _opened_meta := Dict.set path m (_opened_meta c);
            _total_cached := _total_cached c |}.
Proof.
  intros [K W]. split; proj.
  - rewrite !DictFacts.keys_set, (DictFacts.contains_keys _ _ _ K).
    now rewrite K.
  - now apply DictFacts.wf_set.
Qed.

Lemma synced_remove path c :
  synced c ->
  synced {| _opened_files := Dict.remove path (_opened_files c);
            _opened_meta := Dict.remove path (_opened_meta c);
            _total_cached := _total_cached c |}.
Proof.
  intros [K W]. split; proj.
  - now rewrite !DictFacts.keys_remove, K.
  - now apply DictFacts.wf_remove.
Qed.

Lemma synced_bump path (m : FileMeta) c :
  synced c -> In path (Dict.keys (_opened_meta c)) ->
  synced {| _opened_files := _opened_files c;
            _opened_meta := Dict.set path m (_opened_meta c);
            _total_cached := _total_cached c |}.
Proof.
  intros [K W] I. split; proj; [|assumption].
  apply DictFacts.contains_In in I. now rewrite DictFacts.keys_set, I.
Qed.

Lemma loadFile_synced fs path w :
  synced (cache w) -> synced (cache (snd (_loadFile json_loads fs path w))).
Proof.
  intros Hs.
  destruct (loadFile_cases fs path w Hs)
    as [Hf|[(f & v & m & Hf & Gf & Gm & E)|R]].
  - rewrite loadFile_missing by assumption. now apply synced_remove.
  - rewrite (loadFile_hit fs path w f v m) by assumption. proj.
    apply synced_bump; [assumption |].
    apply DictFacts.contains_In, DictFacts.get_contains. now exists m.
  - rewrite loadFile_reload by assumption.
    rewrite real_load_run by assumption. rewrite actual_load_run.
    set (w0 := with_calls w _).
    assert (Hs0 : synced (cache (evicted w0))) by now apply synced_evicted.
    destruct (fs path) as [f|]; [|exact Hs0].
    destruct (f_read f) as [raw|]; [|exact Hs0].
    destruct (json_loads raw) as [data|]; [|exact Hs0].
    proj. now apply synced_set.
Qed.

Lemma loadFile_capacity fs path w :
  synced (cache w) ->
  capacity (snd (_loadFile json_loads fs path w)) = capacity w.
Proof.
  intros Hs.
  destruct (loadFile_cases fs path w Hs)
    as [Hf|[(f & v & m & Hf & Gf & Gm & E)|R]].
  - now rewrite loadFile_missing.
  - now rewrite (loadFile_hit fs path w f v m).
  - rewrite loadFile_reload, real_load_run, actual_load_run by assumption.
    set (w0 := with_calls w _).
    assert (C0 : capacity (evicted w0) = capacity w)
      by now rewrite capacity_evicted.
    destruct (fs path) as [f|]; [|exact C0].
    destruct (f_read f) as [raw|]; [|exact C0].
    destruct (json_loads raw) as [data|]; [|exact C0].
    exact C0.
Qed.

Lemma loadFile_len fs path w :
  synced (cache w) -> 1 <= capacity w ->
  Dict.len (files w) <= capacity w ->
  Dict.len (files (snd (_loadFile json_loads fs path w))) <= capacity w.
Proof.
  intros Hs P B.
  destruct (loadFile_cases fs path w Hs)
    as [Hf|[(f & v & m & Hf & Gf & Gm & E)|R]].
  - rewrite loadFile_missing by assumption. proj.
    pose proof (DictFacts.length_remove_le path (files w)).
    unfold Dict.len in *. lia.
  - now rewrite (loadFile_hit fs path w f v m).
  - rewrite loadFile_reload, real_load_run, actual_load_run by assumption.
    set (w0 := with_calls w _).
    assert (L0 : Dict.len (files (evicted w0)) <= capacity w - 1).
    { rewrite (len_evicted w0 Hs P). subst w0. proj.
      destruct (Z.geb_spec (Dict.len (files w)) (capacity w)); zlia. }
    destruct (fs path) as [f|]; [|proj; zlia].
    destruct (f_read f) as [raw|]; [|proj; zlia].
    destruct (json_loads raw) as [data|]; [|proj; zlia].
    proj. pose proof (DictFacts.length_set path data (files (evicted w0))).
    unfold Dict.len in *. lia.
Qed.

(** The invariant of the cache along any sequence of calls. *)
Lemma run_loads_invariant calls w :
  synced (cache w) -> 1 <= capacity w ->
  Dict.len (files w) <= capacity w ->
  let w' := run_loads json_loads calls w in
  synced (cache w') /\ capacity w' = capacity w /\
  Dict.len (files w') <= capacity w.
Proof.
  revert w. induction calls as [|[fs path] r IH]; intros w Hs P B; cbn.
  - auto.
  - pose proof (loadFile_synced fs path w Hs) as S1.
    pose proof (loadFile_capacity fs path w Hs) as C1.
    pose proof (loadFile_len fs path w Hs P B) as B1.
    rewrite <- C1 in B1, P.
    destruct (IH _ S1 P B1) as (S2 & C2 & B2).
    split; [exact S2 | split; [now rewrite <- C1 | now rewrite <- C1]].
Qed.

Lemma run_loads_synced calls w :
  synced (cache w) -> synced (cache (run_loads json_loads calls w)).
Proof.
  revert w. induction calls as [|[fs path] r IH]; intros w Hs; cbn.
  - assumption.
  - apply IH, loadFile_synced, Hs.
Qed.

Lemma synced_empty capacity : synced (cache (@empty_world payload capacity)).
Proof. split; cbn; [reflexivity | constructor]. Qed.

(** ** Who is evicted *)

(** A victim has a smaller access count than a survivor, or the same count
    and an earlier place in the dictionary. *)
Lemma to_evict_order c v s :
  _total_cached c <= Dict.len (_opened_files c) ->
  In v (to_evict c) -> In s (_opened_meta c) -> ~ In s (to_evict c) ->
  ac (snd v) < ac (snd s) \/
  (ac (snd v) = ac (snd s) /\ before (_opened_meta c) v s).
Proof.
  intros G. rewrite to_evict_firstn by assumption. intros Iv Is Ns.
  apply (sorted_before (fun item => ac (snd item))).
  eapply before_firstn; [exact Iv | | exact Ns].
  eapply Permutation_in; [apply Permutation_sym, sorted_perm | exact Is].
Qed.

Lemma evicted_small w :
  Dict.len (files w) < capacity w -> evicted w = w.
Proof.
  intros L. unfold evicted.
  destruct (Z.geb_spec (Dict.len (files w)) (capacity w)); [lia | reflexivity].
Qed.

Lemma evicted_full w :
  capacity w <= Dict.len (files w) ->
  evicted w =
  with_dicts w (Dict.remove_all (map fst (to_evict (cache w))) (files w))
               (Dict.remove_all (map fst (to_evict (cache w))) (meta w)).
Proof.
  intros G. unfold evicted.
  destruct (Z.geb_spec (Dict.len (files w)) (capacity w)); [reflexivity | lia].
Qed.

Lemma cache_evicted_calls w cs :
  cache (evicted (with_calls w cs)) = cache (evicted w).
Proof. unfold evicted. proj. now destruct (_ >=? _). Qed.

(** Eviction only takes entries away. *)
Lemma entry_evicted k x w :
  entry k (cache (evicted w)) = Some x -> entry k (cache w) = Some x.
Proof.
  unfold evicted. destruct (_ >=? _); [|trivial].
  unfold entry. proj. rewrite !DictFacts.get_remove_all.
  now destruct (existsb _ _).
Qed.

(** ** A reload that fails, a reload that succeeds *)

Lemma failed_load_run fs path w f :
  synced (cache w) -> fs path = Some f -> needs_reload fs path (cache w) ->
  f_read f = None \/ (exists raw, f_read f = Some raw /\ json_loads raw = None) ->
  exists cs,
    _loadFile json_loads fs path w =
    (Raise (match f_read f with None => OSError | Some _ => JSONDecodeError end),
     with_calls (evicted (with_calls w cs)) [SysOpenRead path]).
Proof.
  intros Hs Hf R Bad.
  rewrite loadFile_reload, real_load_run, actual_load_run, Hf by assumption.
  eexists. destruct Bad as [E|(raw & E & J)]; rewrite E; [reflexivity |].
  rewrite J. reflexivity.
Qed.

Lemma reload_run fs path w f raw data :
  synced (cache w) -> fs path = Some f -> needs_reload fs path (cache w) ->
  f_read f = Some raw -> json_loads raw = Some data ->
  let w0 :=
    with_calls w
      (SysExists path ::
       if Dict.contains path (files w) then [SysGetmtime path] else []) in
  _loadFile json_loads fs path w =
  (Ok (Some data),
   with_calls
     (with_dicts (evicted w0) (Dict.set path data (files (evicted w0)))
        (Dict.set path {| mtime := f_mtime f; ac := 1 |} (meta (evicted w0))))
     [SysOpenRead path; SysGetmtime path]).
Proof.
  intros Hs Hf R E J w0.
  rewrite loadFile_reload, real_load_run, actual_load_run, Hf, E, J
    by assumption.
  reflexivity.
Qed.

(** What a load returns is what the cache then holds for the path. *)
Lemma loadFile_returns_stored fs path w v w' :
  synced (cache w) ->
  _loadFile json_loads fs path w = (Ok (Some v), w') ->
  Dict.get path (files w') = Some v.
Proof.
  intros Hs.
  destruct (loadFile_cases fs path w Hs)
    as [Hf|[(f & v0 & m & Hf & Gf & Gm & E)|R]].
  - rewrite loadFile_missing by assumption. discriminate.
  - rewrite (loadFile_hit fs path w f v0 m) by assumption.
    intros [= <- <-]. exact Gf.
  - rewrite loadFile_reload, real_load_run, actual_load_run by assumption.
    destruct (fs path) as [f|]; [|discriminate].
    destruct (f_read f) as [raw|]; [|discriminate].
    destruct (json_loads raw) as [data|]; [|discriminate].
    intros [= <- <-]. proj. apply DictFacts.get_set_same.
Qed.

(** ** Properties kept through a computation *)

Section Preserves.
Variable P : World payload -> Prop.

Lemma preserves_ret {A} (a : A) : preserves P (ret a).
Proof. now intros w. Qed.

Lemma preserves_raise {A} e : preserves P (@raise payload A e).
Proof. now intros w. Qed.

Lemma preserves_bind {A B} (m : M payload A) (k : A -> M payload B) :
  preserves P m -> (forall a, preserves P (k a)) -> preserves P (bind m k).
Proof.
  intros Hm Hk w Hw. unfold bind. specialize (Hm w Hw).
  destruct (m w) as [[a|e] w1]; [apply Hk|]; exact Hm.
Qed.

Lemma preserves_for_each {A} (l : list A) (body : A -> M payload unit) :
  (forall x, preserves P (body x)) -> preserves P (for_each l body).
Proof.
  intros Hb. induction l as [|x r IH]; cbn [for_each].
  - apply preserves_ret.
  - apply preserves_bind; [apply Hb | intros _; exact IH].
Qed.

Lemma preserves_get_cache : preserves P (get_cache payload).
Proof. now intros w. Qed.
End Preserves.

(** A load of another path does not bring a path back. *)
Section Absent.
Variable gone : string.

Lemma absent_log sc : preserves (absent gone) (syscall_log payload sc).
Proof. now intros w. Qed.

Lemma absent_del_files k : preserves (absent gone) (del_opened_files payload k).
Proof.
  intros w [Hf Hm].
  unfold del_opened_files, bind, get_cache, Dict.del, put_files, raise.
  destruct (Dict.contains k (files w)); [|now split].
  split; proj; [|assumption].
  rewrite DictFacts.keys_remove, filter_In. tauto.
Qed.

Lemma absent_del_meta k : preserves (absent gone) (del_opened_meta payload k).
Proof.
  intros w [Hf Hm].
  unfold del_opened_meta, bind, get_cache, Dict.del, put_meta, raise.
  destruct (Dict.contains k (meta w)); [|now split].
  split; proj; [assumption |].
  rewrite DictFacts.keys_remove, filter_In. tauto.
Qed.

Lemma not_In_keys_set {V} k (v : V) d :
  k <> gone -> ~ In gone (Dict.keys d) ->
  ~ In gone (Dict.keys (Dict.set k v d)).
Proof.
  intros N H. rewrite DictFacts.keys_set.
  destruct (Dict.contains k d); [assumption |].
  intros I. apply in_app_or in I as [I|[I|[]]]; [contradiction | congruence].
Qed.

Lemma absent_set_files k data :
  k <> gone -> preserves (absent gone) (set_opened_files payload k data).
Proof.
  intros N w [Hf Hm]. split; proj; [|assumption].
  now apply not_In_keys_set.
Qed.

Lemma absent_set_meta k m :
  k <> gone -> preserves (absent gone) (set_opened_meta payload k m).
Proof.
  intros N w [Hf Hm]. split; proj; [assumption |].
  now apply not_In_keys_set.
Qed.

Lemma absent_bump_ac k :
  k <> gone -> preserves (absent gone) (bump_ac payload k).
Proof.
  intros N w [Hf Hm]. unfold bump_ac, bind, get_cache, put_meta, raise.
  destruct (Dict.get k (meta w)); [|now split].
  split; proj; [assumption |]. now apply not_In_keys_set.
Qed.

Lemma absent_loadFile fs path :
  path <> gone -> preserves (absent gone) (_loadFile json_loads fs path).
Proof.
  intros N.
  assert (Hmt : preserves (absent gone) (os_path_getmtime payload fs path)).
  { apply preserves_bind; [apply absent_log | intros _].
    destruct (fs path); [apply preserves_ret | apply preserves_raise]. }
  unfold _loadFile.
  apply preserves_bind.
  { apply preserves_bind; [apply absent_log | intros _; apply preserves_ret]. }
  intros present. destruct (negb present).
  - apply preserves_bind.
    { apply preserves_bind; [apply preserves_get_cache | intros c].
      destruct (Dict.contains _ _);
        [apply absent_del_files | apply preserves_ret]. }
    intros _. apply preserves_bind; [|intros _; apply preserves_ret].
    apply preserves_bind; [apply preserves_get_cache | intros c].
    destruct (Dict.contains _ _); [apply absent_del_meta | apply preserves_ret].
  - apply preserves_bind.
    { apply preserves_bind; [apply preserves_get_cache | intros c].
      destruct (Dict.contains _ _); [|apply preserves_ret].
      apply preserves_bind; [exact Hmt | intros now_; apply preserves_ret]. }
    intros fresh. destruct fresh.
    + apply preserves_bind; [now apply absent_bump_ac | intros _].
      apply preserves_bind; [|intros v; apply preserves_ret].
      apply preserves_bind; [apply preserves_get_cache | intros c].
      destruct (Dict.get _ _); [apply preserves_ret | apply preserves_raise].
    + apply preserves_bind; [|intros raw; apply preserves_ret].
      unfold __real_load__. apply preserves_bind.
      * apply preserves_bind; [apply preserves_get_cache | intros c].
        destruct (_ >=? _); [|apply preserves_ret].
        apply preserves_for_each. intros item.
        apply preserves_bind; [apply absent_del_files | intros _].
        apply absent_del_meta.
      * intros _. unfold actual_load.
        apply preserves_bind.
        { apply preserves_bind; [apply absent_log | intros _].
          destruct (fs path) as [f|]; [|apply preserves_raise].
          destruct (f_read f); [apply preserves_ret | apply preserves_raise]. }
        intros raw. apply preserves_bind.
        { unfold json_loads_m.
          destruct (json_loads raw);
            [apply preserves_ret | apply preserves_raise]. }
        intros data.
        apply preserves_bind; [now apply absent_set_files | intros _].
        apply preserves_bind; [exact Hmt | intros mt].
        apply preserves_bind; [now apply absent_set_meta | intros _].
        apply preserves_ret.
Qed.

Lemma absent_run_loads calls w :
  Forall (fun call => snd call <> gone) calls ->
  absent gone w -> absent gone (run_loads json_loads calls w).
Proof.
  revert w. induction calls as [|[fs path] r IH]; intros w F A; cbn.
  - assumption.
  - inversion_clear F as [|? ? N F']. apply IH; [assumption |].
    now apply absent_loadFile.
Qed.
End Absent.

(** * The properties of the cache *)

(** C1, capacity invariant: from the empty cache with a capacity of at least
    1, after any finite sequence of calls of [_loadFile], on any paths and
    file systems and whatever each call returned or raised, the payload
    dictionary (and the metadata dictionary) holds at most [_total_cached]
    entries.  Every prefix of a sequence is a sequence, so this is the bound
    after each call. *)
Theorem capacity_invariant (cap : Z) (calls : list (FS * string)) :
  1 <= cap ->
  let w := run_loads json_loads calls (empty_world cap) in
  Dict.len (files w) <= cap /\ Dict.len (meta w) <= cap.
Proof.
  intros P w.
  destruct (run_loads_invariant calls (empty_world cap)) as (Hs & _ & B).
  - apply synced_empty.
  - exact P.
  - cbn. lia.
  - fold w in Hs, B. proj. split; [exact B |].
    unfold Dict.len in *. now rewrite (synced_lengths _ Hs).
Qed.

(** C10, the two dictionaries stay in step: in every world reached from the
    empty cache, a call of [_loadFile] that returns normally leaves the
    payload dictionary and the metadata dictionary with the same keys, in the
    same order and each key once, so every cached path has one payload and
    one [FileMeta]. *)
Theorem keys_in_sync (cap : Z) (calls : list (FS * string)) fs path r w' :
  _loadFile json_loads fs path (run_loads json_loads calls (empty_world cap))
    = (Ok r, w') ->
  Dict.keys (files w') = Dict.keys (meta w') /\
  NoDup (Dict.keys (files w')) /\
  (forall k, In k (Dict.keys (files w')) <->
             exists v m, entry k (cache w') = Some (v, m)).
Proof.
  intros E.
  assert (Hs : synced (cache w')).
  { change w' with (snd (Ok r, w')). rewrite <- E.
    apply loadFile_synced, run_loads_synced, synced_empty. }
  destruct Hs as [K W]. split; [exact K | split; [exact W |]].
  intros k. unfold entry. split.
  - intros I. pose proof I as I'. rewrite K in I'.
    apply DictFacts.contains_In, DictFacts.get_contains in I as [v ->].
    apply DictFacts.contains_In, DictFacts.get_contains in I' as [m ->].
    now exists v, m.
  - intros (v & m & G). apply DictFacts.contains_In, DictFacts.get_contains.
    destruct (Dict.get k (files w')) as [v'|]; [now exists v' | discriminate].
Qed.

(** C3, eviction selection: on a cache whose dictionaries are in step, with a
    capacity of at least 1 and at least that many entries, a call that has to
    reload first deletes the entries [victims] and then runs lines 94-103.
    There are exactly [len - capacity + 1] victims, all of them distinct
    entries of the cache, the other entries stay as they are and in their
    order, and a victim has a smaller access count than every survivor, or
    the same count and an earlier place in the dictionary, which is the order
    of insertion. *)
Theorem eviction_selection fs path w :
  synced (cache w) -> 1 <= capacity w -> capacity w <= Dict.len (files w) ->
  needs_reload fs path (cache w) ->
  let victims := to_evict (cache w) in
  exists w1,
    _loadFile json_loads fs path w =
      returned (actual_load json_loads fs path w1) /\
    files w1 = Dict.remove_all (map fst victims) (files w) /\
    meta w1 = Dict.remove_all (map fst victims) (meta w) /\
    Z.of_nat (List.length victims) = Dict.len (files w) - capacity w + 1 /\
    Dict.len (files w1) = Dict.len (files w) - Z.of_nat (List.length victims) /\
    NoDup (map fst victims) /\ incl victims (meta w) /\
    forall v s, In v victims -> In s (meta w) -> ~ In s victims ->
      ac (snd v) < ac (snd s) \/
      (ac (snd v) = ac (snd s) /\ before (meta w) v s).
Proof.
  intros Hs P G R victims.
  eexists. split.
  { rewrite loadFile_reload, real_load_run by assumption. reflexivity. }
  set (w0 := with_calls w _).
  assert (G0 : capacity w0 <= Dict.len (files w0)) by exact G.
  pose proof (to_evict_length _ Hs P G) as LV. fold victims in LV.
  pose proof (len_evicted w0 Hs P) as L1.
  rewrite (evicted_full w0 G0) in *. subst w0. proj.
  repeat split.
  - exact LV.
  - rewrite L1.
    destruct (Z.geb_spec (Dict.len (files w)) (capacity w)); zlia.
  - apply to_evict_NoDup, synced_wf_meta, Hs.
  - apply to_evict_incl.
  - intros v s. now apply to_evict_order.
Qed.

(** C4, hit correctness: when the file exists and the path is cached with
    the file's current [mtime], [_loadFile] returns the cached payload, leaves
    the payloads alone, adds exactly 1 to the entry's access count, and asks
    the file system only whether the file exists and for its [mtime]: the
    contents are not read.  The payload is the one the previous load of the
    path returned. *)
Theorem hit_correctness fs path w f v m :
  fs path = Some f ->
  Dict.get path (files w) = Some v ->
  Dict.get path (meta w) = Some m ->
  mtime m = f_mtime f ->
  exists w',
    _loadFile json_loads fs path w = (Ok (Some v), w') /\
    files w' = files w /\
    meta w' = Dict.set path {| mtime := mtime m; ac := ac m + 1 |} (meta w) /\
    entry path (cache w') = Some (v, {| mtime := mtime m; ac := ac m + 1 |}) /\
    trace w' = trace w ++ [SysExists path; SysGetmtime path] /\
    forall fs0 w0 v0,
      synced (cache w0) ->
      _loadFile json_loads fs0 path w0 = (Ok (Some v0), w) -> v0 = v.
Proof.
  intros Hf Gf Gm E. eexists.
  split; [apply (loadFile_hit fs path w f v m); assumption |].
  proj. repeat split.
  - unfold entry. proj. now rewrite Gf, DictFacts.get_set_same.
  - intros fs0 w0 v0 Hs0 L.
    apply loadFile_returns_stored in L; [congruence | assumption].
Qed.

(** C5, deletion correctness: when the file does not exist, whatever the
    cache holds, [_loadFile] returns [None], deletes the path from both
    dictionaries and touches no other entry; and as long as the following
    calls are for other paths, the path is not among the entries an eviction
    selects. *)
Theorem deletion_correctness fs path w :
  fs path = None ->
  exists w',
    _loadFile json_loads fs path w = (Ok None, w') /\
    files w' = Dict.remove path (files w) /\
    meta w' = Dict.remove path (meta w) /\
    entry path (cache w') = None /\
    (forall k, k <> path -> entry k (cache w') = entry k (cache w)) /\
    forall calls,
      Forall (fun call => snd call <> path) calls ->
      let w'' := run_loads json_loads calls w' in
      entry path (cache w'') = None /\
      ~ In path (map fst (to_evict (cache w''))).
Proof.
  intros Hf. eexists. split; [now apply loadFile_missing |].
  set (w' := with_calls _ _).
  assert (A : absent path w')
    by (split; subst w'; proj; apply DictFacts.remove_not_In).
  split; [reflexivity |]. split; [reflexivity |].
  split; [|split].
  - unfold entry. subst w'. proj. now rewrite DictFacts.get_remove_same.
  - intros k N. unfold entry. subst w'. proj.
    now rewrite !DictFacts.get_remove_other by congruence.
  - intros calls F w''.
    destruct (absent_run_loads path calls w' F A) as [Af Am]. split.
    + apply DictFacts.get_None in Af. unfold entry. fold w'' in Af.
      now rewrite Af.
    + intros I. apply Am. apply in_map_iff in I as (item & <- & I).
      apply in_map, to_evict_incl, I.
Qed.

(** C6, staleness correctness: when the path is cached with an [mtime] that
    is not the file's current one, and the file can be read and parsed,
    [_loadFile] reads the contents again, returns the newly parsed value and
    leaves an entry for the path with that value as payload, the file's
    current [mtime] and an access count of 1. *)
Theorem staleness_correctness fs path w f raw data v m :
  synced (cache w) ->
  fs path = Some f -> f_read f = Some raw -> json_loads raw = Some data ->
  Dict.get path (files w) = Some v ->
  Dict.get path (meta w) = Some m ->
  mtime m <> f_mtime f ->
  exists w',
    _loadFile json_loads fs path w = (Ok (Some data), w') /\
    entry path (cache w') = Some (data, {| mtime := f_mtime f; ac := 1 |}) /\
    trace w' =
      trace w ++ [SysExists path; SysGetmtime path;
                  SysOpenRead path; SysGetmtime path].
Proof.
  intros Hs Hf Er J Gf Gm N.
  assert (R : needs_reload fs path (cache w)).
  { exists f. split; [assumption |]. right. now rewrite Gm. }
  assert (C : Dict.contains path (files w) = true)
    by (apply DictFacts.get_contains; now exists v).
  pose proof (reload_run fs path w f raw data Hs Hf R Er J) as L.
  cbv zeta in L. rewrite C in L.
  eexists. split; [exact L |]. proj. split.
  - unfold entry. proj. now rewrite !DictFacts.get_set_same.
  - rewrite trace_evicted. proj. now rewrite <- app_assoc.
Qed.

(** Consecutive hits, as one step. *)
Lemma hits_run (fss : list FS) path w v m :
  Dict.get path (files w) = Some v ->
  Dict.get path (meta w) = Some m ->
  Forall (fun fs => exists f, fs path = Some f /\ f_mtime f = mtime m) fss ->
  let calls := map (fun fs => (fs, path)) fss in
  cache (run_loads json_loads calls w) =
    {| _opened_files := files w;
       _opened_meta :=
         Dict.set path
           {| mtime := mtime m; ac := ac m + Z.of_nat (List.length fss) |}
           (meta w);
       _total_cached := capacity w |} /\
  run_results json_loads calls w = map (fun _ => Ok (Some v)) fss.
Proof.
  revert w m. induction fss as [|fs r IH]; intros w m Gf Gm F; cbv zeta;
    cbn [run_loads run_results map List.length].
  - split; [|reflexivity]. cbn [Z.of_nat].
    replace {| mtime := mtime m; ac := ac m + 0 |} with m
      by (destruct m; cbn; f_equal; lia).
    rewrite DictFacts.set_same by assumption. now destruct w as [[fl mt cp] tr].
  - inversion_clear F as [|? ? (f & Hf & E) F'].
    rewrite (loadFile_hit fs path w f v m) by auto.
    cbn [fst snd].
    set (m1 := {| mtime := mtime m; ac := ac m + 1 |}).
    set (w1 := with_calls _ _).
    destruct (IH w1 m1) as [C Rs].
    + exact Gf.
    + apply DictFacts.get_set_same.
    + exact F'.
    + cbv zeta in C, Rs. rewrite C, Rs. subst w1 m1. proj.
      rewrite DictFacts.set_set. split; [|reflexivity].
      do 3 f_equal. lia.
Qed.

(** C7, idempotence of hits: [n] consecutive calls of [_loadFile] on a cached
    path whose file keeps the stored [mtime] all return the cached payload;
    afterwards the payloads are as before, the metadata differ only in the
    access count of that path, which has grown by exactly [n], and every
    other entry is unchanged. *)
Theorem hits_idempotent (fss : list FS) path w v m :
  Dict.get path (files w) = Some v ->
  Dict.get path (meta w) = Some m ->
  Forall (fun fs => exists f, fs path = Some f /\ f_mtime f = mtime m) fss ->
  let calls := map (fun fs => (fs, path)) fss in
  let w' := run_loads json_loads calls w in
  let n := Z.of_nat (List.length fss) in
  Forall (eq (Ok (Some v))) (run_results json_loads calls w) /\
  files w' = files w /\
  meta w' = Dict.set path {| mtime := mtime m; ac := ac m + n |} (meta w) /\
  Dict.keys (meta w') = Dict.keys (meta w) /\
  entry path (cache w') = Some (v, {| mtime := mtime m; ac := ac m + n |}) /\
  forall k, k <> path -> entry k (cache w') = entry k (cache w).
Proof.
  intros Gf Gm F calls w' n.
  destruct (hits_run fss path w v m Gf Gm F) as [C Rs].
  fold calls in C, Rs. fold w' in C. fold n in C.
  rewrite Rs, C. proj. repeat split.
  - apply Forall_forall. intros x I. apply in_map_iff in I as (? & <- & _).
    reflexivity.
  - rewrite DictFacts.keys_set.
    assert (Cm : Dict.contains path (meta w) = true)
      by (apply DictFacts.get_contains; now exists m).
    now rewrite Cm.
  - unfold entry. proj. now rewrite Gf, DictFacts.get_set_same.
  - intros k N. unfold entry. proj.
    now rewrite DictFacts.get_set_other by congruence.
Qed.

(** C2 as the code has it, a reload that fails: on a cache whose
    dictionaries are in step, when the file exists, the call has to reload
    and the read raises or the text does not parse, [_loadFile] raises that
    error ([OSError] for the read, [JSONDecodeError] for the parser) and
    inserts and modifies nothing: every entry left is an entry of before.
    With fewer entries than the capacity the cache is exactly as before;
    otherwise the eviction of lines 79-90 has already run and the entries
    missing are exactly its victims. *)
Theorem failed_load_effect fs path w f :
  synced (cache w) -> fs path = Some f -> needs_reload fs path (cache w) ->
  f_read f = None \/ (exists raw, f_read f = Some raw /\ json_loads raw = None) ->
  exists e w',
    _loadFile json_loads fs path w = (Raise e, w') /\
    e = match f_read f with None => OSError | Some _ => JSONDecodeError end /\
    (forall k x, entry k (cache w') = Some x -> entry k (cache w) = Some x) /\
    (Dict.len (files w) < capacity w -> cache w' = cache w) /\
    (capacity w <= Dict.len (files w) ->
     files w' = Dict.remove_all (map fst (to_evict (cache w))) (files w) /\
     meta w' = Dict.remove_all (map fst (to_evict (cache w))) (meta w) /\
     capacity w' = capacity w).
Proof.
  intros Hs Hf R Bad.
  destruct (failed_load_run fs path w f Hs Hf R Bad) as [cs L].
  do 2 eexists. split; [exact L |]. split; [reflexivity |].
  proj. rewrite cache_evicted_calls. split; [|split].
  - intros k x. apply entry_evicted.
  - intros Lt. now rewrite evicted_small.
  - intros G. now rewrite evicted_full.
Qed.

(** C9 as the code has it, a failed reload and the entry of its path: on a
    cache whose dictionaries are in step, when the path is cached and its
    reload fails, [_loadFile] raises and the cache afterwards holds either
    the entry of before, payload, [mtime] and access count intact, or no
    entry for the path; it never holds another one.  The entry is intact
    whenever the cache had fewer entries than its capacity or the path is not
    among the victims of the eviction, and it is gone when the cache was full
    and the path is among them. *)
Theorem failed_reload_entry fs path w f x :
  synced (cache w) -> fs path = Some f -> needs_reload fs path (cache w) ->
  f_read f = None \/ (exists raw, f_read f = Some raw /\ json_loads raw = None) ->
  entry path (cache w) = Some x ->
  let victim := existsb (String.eqb path) (map fst (to_evict (cache w))) in
  exists e w',
    _loadFile json_loads fs path w = (Raise e, w') /\
    (entry path (cache w') = Some x \/ entry path (cache w') = None) /\
    (Dict.len (files w) < capacity w \/ victim = false ->
     entry path (cache w') = Some x) /\
    (capacity w <= Dict.len (files w) -> victim = true ->
     entry path (cache w') = None).
Proof.
  intros Hs Hf R Bad X victim.
  destruct (failed_load_run fs path w f Hs Hf R Bad) as [cs L].
  do 2 eexists. split; [exact L |].
  proj. rewrite cache_evicted_calls.
  destruct (Z.lt_ge_cases (Dict.len (files w)) (capacity w)) as [Lt|G].
  - rewrite evicted_small by assumption.
    split; [now left |]. split; [trivial | intros; zlia].
  - rewrite evicted_full by assumption. unfold entry in *. proj.
    rewrite !DictFacts.get_remove_all. fold victim.
    destruct victim.
    + split; [now right |]. split; [|trivial].
      intros [Lt|Nv]; [zlia | discriminate].
    + split; [now left |]. split; [trivial | discriminate].
Qed.

(** C8, the scenario with capacity 2: with files a, b and c present,
    readable, parseable and the same throughout, the calls [Load(a)],
    [Load(a)], [Load(b)], [Load(c)], [Load(b)] from the empty cache leave the
    cache, in turn, with a (count 1); a (2); a (2) and b (1); a (2) and c
    (1), b being evicted; a (2) and b (1), c being evicted. *)
Theorem lfu_scenario (fs : FS) :
  (forall p, In p ["a"; "b"; "c"]%string ->
     exists f raw data,
       fs p = Some f /\ f_read f = Some raw /\ json_loads raw = Some data) ->
  let after paths :=
    let w :=
      run_loads json_loads (map (fun p => (fs, p)) paths) (empty_world 2) in
    (Dict.keys (files w), counts (cache w)) in
  after ["a"]%string = (["a"], [("a", 1)])%string /\
  after ["a"; "a"]%string = (["a"], [("a", 2)])%string /\
  after ["a"; "a"; "b"]%string = (["a"; "b"], [("a", 2); ("b", 1)])%string /\
  after ["a"; "a"; "b"; "c"]%string =
    (["a"; "c"], [("a", 2); ("c", 1)])%string /\
  after ["a"; "a"; "b"; "c"; "b"]%string =
    (["a"; "b"], [("a", 2); ("b", 1)])%string.
Proof.
  intros H.
  destruct (H "a"%string) as (fa & ra & da & Fa & Ra & Ja); [cbn; tauto |].
  destruct (H "b"%string) as (fb & rb & db & Fb & Rb & Jb); [cbn; tauto |].
  destruct (H "c"%string) as (fc & rc & dc & Fc & Rc & Jc); [cbn; tauto |].
  clear H. cbv zeta.
  repeat split; cbn [map run_loads];
    repeat (unfold counts, _loadFile, __real_load__, evict, evict_one,
              actual_load, is_fresh, os_path_exists, os_path_getmtime,
              open_read, json_loads_m, bump_ac, getitem_opened_files,
              set_opened_files, set_opened_meta, del_opened_files,
              del_opened_meta, to_evict, slice_to, Dict.del, Dict.contains,
              Dict.remove, Dict.len, Dict.keys, bind, ret, raise, get_cache,
              put_files, put_meta, syscall_log, empty_world;
            cbn;
            rewrite ?Fa, ?Fb, ?Fc, ?Ra, ?Rb, ?Rc, ?Ja, ?Jb, ?Jc, ?Z.eqb_refl);
    reflexivity.
Qed.

End CacheFacts.

(** * The properties on the worked inputs *)

Section Instances.
Local Open Scope string_scope.

(** Closed facts about the worked inputs, by evaluation. *)
Ltac run := vm_compute; reflexivity.

Lemma synced_full : synced (cache Demo.full).
Proof.
  split; [run |]. unfold Dict.wf. vm_compute.
  repeat constructor; simpl; intuition discriminate.
Defined.

Lemma capacity_invariant_witness :
  1 <= 2 /\
  Dict.len (_opened_files
              (cache (run_loads Demo.loads Demo.scenario (empty_world 2)))) <= 2.
Proof.
  assert (P : 1 <= 2) by lia.
  split; [exact P |].
  exact (proj1 (capacity_invariant string Demo.loads 2 Demo.scenario P)).
Defined.

Lemma keys_in_sync_witness :
  let w' := snd (_loadFile Demo.loads Demo.abc "c" Demo.full) in
  _loadFile Demo.loads Demo.abc "c" Demo.full = (Ok (Some "[3]"), w') /\
  Dict.keys (_opened_files (cache w')) = Dict.keys (_opened_meta (cache w')).
Proof.
  intros w'.
  assert (E : _loadFile Demo.loads Demo.abc "c" Demo.full
              = (Ok (Some "[3]"), w')) by run.
  split; [exact E |].
  exact (proj1 (keys_in_sync string Demo.loads 2
                  [(Demo.abc, "a"); (Demo.abc, "a"); (Demo.abc, "b")]
                  Demo.abc "c" (Some "[3]") w' E)).
Defined.

Lemma needs_reload_c : needs_reload Demo.abc "c" (cache Demo.full).
Proof.
  exists (Demo.file 30 "[3]"). split; [run | left; run].
Defined.

Lemma eviction_selection_witness :
  synced (cache Demo.full) /\
  1 <= _total_cached (cache Demo.full) /\
  _total_cached (cache Demo.full) <= Dict.len (_opened_files (cache Demo.full)) /\
  needs_reload Demo.abc "c" (cache Demo.full) /\
  exists w1,
    _loadFile Demo.loads Demo.abc "c" Demo.full =
      returned (actual_load Demo.loads Demo.abc "c" w1) /\
    Z.of_nat (List.length (to_evict (cache Demo.full))) =
      Dict.len (_opened_files (cache Demo.full)) -
      _total_cached (cache Demo.full) + 1.
Proof.
  assert (P : 1 <= _total_cached (cache Demo.full))
    by (vm_compute; discriminate).
  assert (G : _total_cached (cache Demo.full) <=
              Dict.len (_opened_files (cache Demo.full)))
    by (vm_compute; discriminate).
  split; [exact synced_full |]. split; [exact P |]. split; [exact G |].
  split; [exact needs_reload_c |].
  destruct (eviction_selection string Demo.loads Demo.abc "c" Demo.full
              synced_full P G needs_reload_c)
    as (w1 & L & _ & _ & N & _).
  exists w1. split; [exact L | exact N].
Defined.

Lemma hit_correctness_witness :
  Demo.abc "a" = Some (Demo.file 10 "[1]") /\
  Dict.get "a" (_opened_files (cache Demo.full)) = Some "[1]" /\
  Dict.get "a" (_opened_meta (cache Demo.full)) =
    Some {| mtime := 10; ac := 2 |} /\
  exists w',
    _loadFile Demo.loads Demo.abc "a" Demo.full = (Ok (Some "[1]"), w') /\
    entry "a" (cache w') = Some ("[1]", {| mtime := 10; ac := 2 + 1 |}) /\
    trace w' = (trace Demo.full ++ [SysExists "a"; SysGetmtime "a"])%list.
Proof.
  assert (Hf : Demo.abc "a" = Some (Demo.file 10 "[1]")) by run.
  assert (Gf : Dict.get "a" (_opened_files (cache Demo.full)) = Some "[1]")
    by run.
  assert (Gm : Dict.get "a" (_opened_meta (cache Demo.full)) =
               Some {| mtime := 10; ac := 2 |}) by run.
  split; [exact Hf |]. split; [exact Gf |]. split; [exact Gm |].
  destruct (hit_correctness string Demo.loads Demo.abc "a" Demo.full
              (Demo.file 10 "[1]") "[1]" {| mtime := 10; ac := 2 |}
              Hf Gf Gm eq_refl)
    as (w' & L & _ & _ & En & T & _).
  exists w'. split; [exact L |]. split; [exact En | exact T].
Defined.

Lemma deletion_correctness_witness :
  Demo.no_b "b" = None /\
  exists w',
    _loadFile Demo.loads Demo.no_b "b" Demo.full = (Ok None, w') /\
    entry "b" (cache w') = None /\
    ~ In "b" (map fst (to_evict
        (cache (run_loads Demo.loads [(Demo.no_b, "c")] w')))).
Proof.
  assert (Hf : Demo.no_b "b" = None) by run.
  split; [exact Hf |].
  destruct (deletion_correctness string Demo.loads Demo.no_b "b" Demo.full Hf)
    as (w' & L & _ & _ & En & _ & Later).
  exists w'. split; [exact L |]. split; [exact En |].
  refine (proj2 (Later [(Demo.no_b, "c")] _)).
  constructor; [discriminate | constructor].
Defined.

Lemma staleness_correctness_witness :
  synced (cache Demo.full) /\
  Demo.new_b "b" = Some (Demo.file 21 "[2, 2]") /\
  Dict.get "b" (_opened_meta (cache Demo.full)) =
    Some {| mtime := 20; ac := 1 |} /\
  20 <> 21 /\
  exists w',
    _loadFile Demo.loads Demo.new_b "b" Demo.full = (Ok (Some "[2, 2]"), w') /\
    entry "b" (cache w') = Some ("[2, 2]", {| mtime := 21; ac := 1 |}).
Proof.
  assert (Hf : Demo.new_b "b" = Some (Demo.file 21 "[2, 2]")) by run.
  assert (Er : f_read (Demo.file 21 "[2, 2]") = Some "[2, 2]") by run.
  assert (J : Demo.loads "[2, 2]" = Some "[2, 2]") by run.
  assert (Gf : Dict.get "b" (_opened_files (cache Demo.full)) = Some "[2]")
    by run.
  assert (Gm : Dict.get "b" (_opened_meta (cache Demo.full)) =
               Some {| mtime := 20; ac := 1 |}) by run.
  assert (N : 20 <> 21) by discriminate.
  split; [exact synced_full |]. split; [exact Hf |]. split; [exact Gm |].
  split; [exact N |].
  destruct (staleness_correctness string Demo.loads Demo.new_b "b" Demo.full
              (Demo.file 21 "[2, 2]") "[2, 2]" "[2, 2]" "[2]"
              {| mtime := 20; ac := 1 |} synced_full Hf Er J Gf Gm N)
    as (w' & L & En & _).
  exists w'. split; [exact L | exact En].
Defined.

Lemma hits_idempotent_witness :
  Forall (fun fs => exists f, fs "a" = Some f /\ f_mtime f = 10)
    [Demo.abc; Demo.new_b; Demo.abc] /\
  let w' :=
    run_loads Demo.loads
      [(Demo.abc, "a"); (Demo.new_b, "a"); (Demo.abc, "a")] Demo.full in
  _opened_files (cache w') = _opened_files (cache Demo.full) /\
  entry "a" (cache w') = Some ("[1]", {| mtime := 10; ac := 2 + 3 |}) /\
  entry "b" (cache w') = entry "b" (cache Demo.full).
Proof.
  assert (Gf : Dict.get "a" (_opened_files (cache Demo.full)) = Some "[1]")
    by run.
  assert (Gm : Dict.get "a" (_opened_meta (cache Demo.full)) =
               Some {| mtime := 10; ac := 2 |}) by run.
  assert (F : Forall (fun fs => exists f, fs "a" = Some f /\ f_mtime f = 10)
                [Demo.abc; Demo.new_b; Demo.abc])
    by (repeat constructor; exists (Demo.file 10 "[1]"); split; run).
  split; [exact F |].
  destruct (hits_idempotent string Demo.loads
              [Demo.abc; Demo.new_b; Demo.abc] "a" Demo.full "[1]"
              {| mtime := 10; ac := 2 |} Gf Gm F)
    as (_ & Fl & _ & _ & En & Other).
  split; [exact Fl |]. split; [exact En |].
  refine (Other "b" _). discriminate.
Defined.

Lemma lfu_scenario_witness :
  (forall p, In p ["a"; "b"; "c"] ->
     exists f raw data,
       Demo.abc p = Some f /\ f_read f = Some raw /\
       Demo.loads raw = Some data) /\
  (let w := run_loads Demo.loads Demo.scenario (empty_world 2) in
   (Dict.keys (_opened_files (cache w)), counts (cache w))) =
    (["a"; "b"], [("a", 2); ("b", 1)]).
Proof.
  assert (H : forall p, In p ["a"; "b"; "c"] ->
     exists f raw data,
       Demo.abc p = Some f /\ f_read f = Some raw /\
       Demo.loads raw = Some data).
  { intros p [<-|[<-|[<-|[]]]].
    - exists (Demo.file 10 "[1]"), "[1]", "[1]". repeat split; run.
    - exists (Demo.file 20 "[2]"), "[2]", "[2]". repeat split; run.
    - exists (Demo.file 30 "[3]"), "[3]", "[3]". repeat split; run. }
  split; [exact H |].
  exact (proj2 (proj2 (proj2 (proj2
           (lfu_scenario string Demo.loads Demo.abc H))))).
Defined.

Lemma needs_reload_broken_c :
  needs_reload Demo.broken_c "c" (cache Demo.full).
Proof.
  exists (Demo.file 30 "{"). split; [run | left; run].
Defined.

Lemma needs_reload_broken_b :
  needs_reload Demo.broken_b "b" (cache Demo.full).
Proof.
  exists (Demo.file 21 "{"). split; [run | right; vm_compute; discriminate].
Defined.

(** C2 fails as stated: in the full cache of capacity 2, loading [c] when
    its text does not parse raises [JSONDecodeError] after [b] was evicted,
    so the cache is not as it was before the call. *)
Lemma failed_load_changes_cache :
  Demo.broken_c "c" = Some (Demo.file 30 "{") /\
  Demo.loads "{" = None /\
  fst (_loadFile Demo.loads Demo.broken_c "c" Demo.full)
    = Raise JSONDecodeError /\
  entry "b" (cache Demo.full) = Some ("[2]", {| mtime := 20; ac := 1 |}) /\
  entry "b" (cache (snd (_loadFile Demo.loads Demo.broken_c "c" Demo.full)))
    = None /\
  cache (snd (_loadFile Demo.loads Demo.broken_c "c" Demo.full))
    <> cache Demo.full.
Proof.
  split; [run |]. split; [run |]. split; [run |]. split; [run |].
  split; [run |]. vm_compute. discriminate.
Qed.

Lemma failed_load_effect_witness :
  synced (cache Demo.full) /\
  Demo.broken_c "c" = Some (Demo.file 30 "{") /\
  needs_reload Demo.broken_c "c" (cache Demo.full) /\
  (f_read (Demo.file 30 "{") = None \/
   exists raw, f_read (Demo.file 30 "{") = Some raw /\ Demo.loads raw = None) /\
  exists e w',
    _loadFile Demo.loads Demo.broken_c "c" Demo.full = (Raise e, w') /\
    e = JSONDecodeError /\
    forall k x, entry k (cache w') = Some x ->
                entry k (cache Demo.full) = Some x.
Proof.
  assert (Hf : Demo.broken_c "c" = Some (Demo.file 30 "{")) by run.
  assert (Bad : f_read (Demo.file 30 "{") = None \/
    exists raw, f_read (Demo.file 30 "{") = Some raw /\ Demo.loads raw = None)
    by (right; exists "{"; split; run).
  split; [exact synced_full |]. split; [exact Hf |].
  split; [exact needs_reload_broken_c |]. split; [exact Bad |].
  destruct (failed_load_effect string Demo.loads Demo.broken_c "c" Demo.full
              (Demo.file 30 "{") synced_full Hf needs_reload_broken_c Bad)
    as (e & w' & L & Ee & Sub & _).
  exists e, w'. split; [exact L |]. split; [exact Ee | exact Sub].
Defined.

(** C9 fails as stated: in the full cache of capacity 2, where [b] is cached
    with the smallest access count, reloading [b] when its new text does not
    parse raises [JSONDecodeError] and the cache no longer has the entry of
    [b]. *)
Lemma failed_reload_loses_entry :
  entry "b" (cache Demo.full) = Some ("[2]", {| mtime := 20; ac := 1 |}) /\
  Demo.broken_b "b" = Some (Demo.file 21 "{") /\
  Demo.loads "{" = None /\
  fst (_loadFile Demo.loads Demo.broken_b "b" Demo.full)
    = Raise JSONDecodeError /\
  entry "b" (cache (snd (_loadFile Demo.loads Demo.broken_b "b" Demo.full)))
    = None.
Proof.
  split; [run |]. split; [run |]. split; [run |]. split; run.
Qed.

Lemma failed_reload_entry_witness :
  synced (cache Demo.full) /\
  Demo.broken_b "b" = Some (Demo.file 21 "{") /\
  entry "b" (cache Demo.full) = Some ("[2]", {| mtime := 20; ac := 1 |}) /\
  exists e w',
    _loadFile Demo.loads Demo.broken_b "b" Demo.full = (Raise e, w') /\
    (entry "b" (cache w') = Some ("[2]", {| mtime := 20; ac := 1 |}) \/
     entry "b" (cache w') = None).
Proof.
  assert (Hf : Demo.broken_b "b" = Some (Demo.file 21 "{")) by run.
  assert (Bad : f_read (Demo.file 21 "{") = None \/
    exists raw, f_read (Demo.file 21 "{") = Some raw /\ Demo.loads raw = None)
    by (right; exists "{"; split; run).
  assert (X : entry "b" (cache Demo.full) =
              Some ("[2]", {| mtime := 20; ac := 1 |})) by run.
  split; [exact synced_full |]. split; [exact Hf |]. split; [exact X |].
  destruct (failed_reload_entry string Demo.loads Demo.broken_b "b" Demo.full
              (Demo.file 21 "{") ("[2]", {| mtime := 20; ac := 1 |})
              synced_full Hf needs_reload_broken_b Bad X)
    as (e & w' & L & Alt & _).
  exists e, w'. split; [exact L | exact Alt].
Defined.

End Instances.

(** * More about the cache *)

Section CacheMore.
Variable payload : Type.
Variable json_loads : string -> option payload.
Implicit Types (w : World payload) (path : string).

Local Abbreviation files w := (_opened_files (cache w)).
Local Abbreviation meta w := (_opened_meta (cache w)).
Local Abbreviation capacity w := (_total_cached (cache w)).

Ltac proj :=
  cbn [cache trace _opened_files _opened_meta _total_cached mtime ac
       with_dicts with_calls returned fst snd] in *.
Ltac zlia := unfold Dict.len in *; lia.

(** The calls a reload makes before it reaches [__real_load__]. *)
Lemma hit_excludes_reload fs path w f v m :
  fs path = Some f ->
  Dict.get path (files w) = Some v ->
  Dict.get path (meta w) = Some m ->
  mtime m = f_mtime f ->
  ~ needs_reload fs path (cache w).
Proof.
  intros Hf Gf Gm E (f' & Hf' & [C|N]).
  - apply DictFacts.contains_false, DictFacts.get_None in C. congruence.
  - rewrite Gm in N. congruence.
Qed.



(** After a load that returned a value the cache holds it, with the file's
    modification time. *)
Lemma loadFile_stores fs path w v w1 :
  synced (cache w) ->
  _loadFile json_loads fs path w = (Ok (Some v), w1) ->
  exists f m,
    fs path = Some f /\ Dict.get path (files w1) = Some v /\
    Dict.get path (meta w1) = Some m /\ mtime m = f_mtime f.
Proof.
  intros Hs.
  destruct (loadFile_cases _ fs path w Hs)
    as [Hf|[(f & v0 & m & Hf & Gf & Gm & E)|R]].
  - rewrite loadFile_missing by assumption. discriminate.
  - rewrite (loadFile_hit _ json_loads fs path w f v0 m) by assumption.
    intros [= <- <-]. exists f. eexists. proj.
    split; [exact Hf |]. split; [exact Gf |].
    split; [apply DictFacts.get_set_same | exact E].
  - rewrite loadFile_reload, real_load_run, actual_load_run by assumption.
    destruct (fs path) as [f|]; [|discriminate].
    destruct (f_read f) as [raw|]; [|discriminate].
    destruct (json_loads raw) as [data|]; [|discriminate].
    intros [= <- <-]. exists f. eexists. proj.
    split; [reflexivity |]. split; [apply DictFacts.get_set_same |].
    split; [apply DictFacts.get_set_same | reflexivity].
Qed.

(** X3: a load that returned a value is followed by a hit, as long as the
    file keeps its modification time: the second call returns the same
    value, reads no contents and only counts the access. *)
Theorem load_then_hit fs fs' path w v w1 f :
  synced (cache w) ->
  _loadFile json_loads fs path w = (Ok (Some v), w1) ->
  fs path = Some f ->
  (exists f', fs' path = Some f' /\ f_mtime f' = f_mtime f) ->
  exists m,
    entry path (cache w1) = Some (v, m) /\
    _loadFile json_loads fs' path w1 =
      (Ok (Some v),
       with_calls
         (with_dicts w1 (files w1)
            (Dict.set path {| mtime := mtime m; ac := ac m + 1 |} (meta w1)))
         [SysExists path; SysGetmtime path]).
Proof.
  intros Hs L Hf (f' & Hf' & Em).
  destruct (loadFile_stores fs path w v w1 Hs L) as (f0 & m & Hf0 & Gf & Gm & E).
  exists m. split.
  - unfold entry. now rewrite Gf, Gm.
  - apply (loadFile_hit _ json_loads fs' path w1 f' v m); try assumption.
    congruence.
Qed.

Lemma length_set_old {V} k (v : V) (d : Dict.t V) :
  Dict.contains k d = true ->
  List.length (Dict.set k v d) = List.length d.
Proof.
  intros C. pose proof (DictFacts.keys_set k v d) as K. rewrite C in K.
  apply (f_equal (@List.length _)) in K. unfold Dict.keys in K.
  now rewrite !length_map in K.
Qed.

Lemma length_set_new {V} k (v : V) (d : Dict.t V) :
  Dict.contains k d = false ->
  List.length (Dict.set k v d) = S (List.length d).
Proof.
  intros C. apply DictFacts.contains_false in C.
  rewrite DictFacts.set_new by assumption. rewrite length_app. cbn. lia.
Qed.

Lemma contains_remove_all {V} k ks (d : Dict.t V) :
  Dict.contains k (Dict.remove_all ks d) =
  Dict.contains k d && negb (existsb (String.eqb k) ks).
Proof.
  destruct (Dict.contains k (Dict.remove_all ks d)) eqn:C.
  - apply DictFacts.get_contains in C as [v G].
    rewrite DictFacts.get_remove_all in G.
    destruct (existsb _ ks); [discriminate |].
    assert (C' : Dict.contains k d = true)
      by (apply DictFacts.get_contains; now exists v).
    now rewrite C'.
  - destruct (Dict.contains k d) eqn:C'; [|reflexivity].
    destruct (existsb (String.eqb k) ks) eqn:E; [reflexivity |].
    apply DictFacts.get_contains in C' as [v G].
    assert (Dict.contains k (Dict.remove_all ks d) = true); [|congruence].
    apply DictFacts.get_contains. exists v.
    now rewrite DictFacts.get_remove_all, E.
Qed.

Lemma contains_evicted_false path w :
  Dict.contains path (files w) = false ->
  Dict.contains path (files (evicted w)) = false.
Proof.
  intros C. unfold evicted. destruct (_ >=? _); [|exact C].
  proj. now rewrite contains_remove_all, C.
Qed.

(** X4: below its capacity the cache evicts nothing. *)
Theorem load_below_capacity fs path w f raw data :
  synced (cache w) ->
  Dict.len (files w) < capacity w ->
  needs_reload fs path (cache w) ->
  fs path = Some f -> f_read f = Some raw -> json_loads raw = Some data ->
  exists w',
    _loadFile json_loads fs path w = (Ok (Some data), w') /\
    files w' = Dict.set path data (files w) /\
    meta w' = Dict.set path {| mtime := f_mtime f; ac := 1 |} (meta w) /\
    forall k, k <> path -> entry k (cache w') = entry k (cache w).
Proof.
  intros Hs Lt R Hf Er J.
  pose proof (reload_run _ json_loads fs path w f raw data Hs Hf R Er J) as L.
  cbv zeta in L. rewrite evicted_small in L by exact Lt.
  eexists. split; [exact L |]. proj. repeat split.
  intros k N. unfold entry. proj.
  now rewrite !DictFacts.get_set_other by congruence.
Qed.

(** X5: the size of the cache after a miss that loads. *)
Theorem size_after_miss fs path w f raw data :
  synced (cache w) -> 1 <= capacity w ->
  Dict.len (files w) <= capacity w ->
  Dict.contains path (files w) = false ->
  fs path = Some f -> f_read f = Some raw -> json_loads raw = Some data ->
  Dict.len (files (snd (_loadFile json_loads fs path w))) =
  Z.min (Dict.len (files w) + 1) (capacity w).
Proof.
  intros Hs P B C Hf Er J.
  assert (R : needs_reload fs path (cache w))
    by (exists f; split; [assumption | now left]).
  pose proof (reload_run _ json_loads fs path w f raw data Hs Hf R Er J) as L.
  cbv zeta in L. rewrite L. rewrite C. proj.
  set (w0 := with_calls w [SysExists path]).
  pose proof (len_evicted _ w0 Hs P) as LE.
  assert (C0 : Dict.contains path (files (evicted w0)) = false)
    by now apply contains_evicted_false.
  unfold Dict.len in *. rewrite (length_set_new _ _ _ C0).
  subst w0. proj.
  destruct (Z.geb_spec (Z.of_nat (List.length (files w))) (capacity w)); lia.
Qed.

(** X6: a stale path that survives the eviction is overwritten in place, so
    the reload of a cached path on a full cache leaves a free slot. *)
Theorem stale_reload_frees_slot fs path w f raw data v m :
  synced (cache w) -> 1 <= capacity w ->
  capacity w <= Dict.len (files w) ->
  Dict.get path (files w) = Some v ->
  Dict.get path (meta w) = Some m ->
  mtime m <> f_mtime f ->
  existsb (String.eqb path) (map fst (to_evict (cache w))) = false ->
  fs path = Some f -> f_read f = Some raw -> json_loads raw = Some data ->
  exists w',
    _loadFile json_loads fs path w = (Ok (Some data), w') /\
    Dict.len (files w') = capacity w - 1 /\
    Dict.keys (files w') =
      Dict.keys (Dict.remove_all (map fst (to_evict (cache w))) (files w)).
Proof.
  intros Hs P G Gf Gm N Nv Hf Er J.
  assert (R : needs_reload fs path (cache w)).
  { exists f. split; [assumption |]. right. now rewrite Gm. }
  assert (C : Dict.contains path (files w) = true)
    by (apply DictFacts.get_contains; now exists v).
  pose proof (reload_run _ json_loads fs path w f raw data Hs Hf R Er J) as L.
  cbv zeta in L. rewrite C in L.
  eexists. split; [exact L |]. proj.
  set (w0 := with_calls w _).
  assert (G0 : capacity w0 <= Dict.len (files w0)) by exact G.
  pose proof (len_evicted _ w0 Hs P) as LE.
  rewrite (evicted_full _ w0 G0) in *. subst w0. proj.
  assert (C0 : Dict.contains path
            (Dict.remove_all (map fst (to_evict (cache w))) (files w)) = true)
    by now rewrite contains_remove_all, C, Nv.
  split.
  - unfold Dict.len in *. rewrite (length_set_old _ _ _ C0), LE.
    destruct (Z.geb_spec (Z.of_nat (List.length (files w))) (capacity w)); lia.
  - now rewrite DictFacts.keys_set, C0.
Qed.

Lemma remove_all_covering {V} ks (d : Dict.t V) :
  incl (Dict.keys d) ks -> Dict.remove_all ks d = [].
Proof.
  unfold Dict.remove_all, Dict.keys.
  induction d as [|[k v] r IH]; intros I; [reflexivity |].
  cbn [filter fst].
  assert (E : existsb (String.eqb k) ks = true).
  { apply existsb_exists. exists k. split; [|apply String.eqb_refl].
    apply I. now left. }
  rewrite E. cbn [negb]. apply IH. intros x Hx. apply I. now right.
Qed.

(** X7: with a capacity of 0 or less every reload empties the cache and
    then caches the one file it loaded. *)
Theorem nonpositive_capacity fs path w f raw data :
  synced (cache w) -> capacity w <= 0 ->
  needs_reload fs path (cache w) ->
  fs path = Some f -> f_read f = Some raw -> json_loads raw = Some data ->
  exists w',
    _loadFile json_loads fs path w = (Ok (Some data), w') /\
    files w' = [(path, data)] /\
    meta w' = [(path, {| mtime := f_mtime f; ac := 1 |})].
Proof.
  intros Hs NP R Hf Er J.
  pose proof (reload_run _ json_loads fs path w f raw data Hs Hf R Er J) as L.
  cbv zeta in L. eexists. split; [exact L |]. proj.
  set (w0 := with_calls w _).
  assert (G0 : capacity w0 <= Dict.len (files w0))
    by (subst w0; proj; zlia).
  rewrite (evicted_full _ w0 G0). subst w0. proj.
  assert (All : to_evict (cache w) =
                sorted (fun item => ac (snd item)) (meta w)).
  { rewrite to_evict_firstn by zlia. apply firstn_all2.
    rewrite length_sorted, (synced_lengths _ _ Hs). zlia. }
  assert (Cov : incl (Dict.keys (meta w)) (map fst (to_evict (cache w)))).
  { rewrite All. unfold Dict.keys. apply incl_map. intros x Hx.
    eapply Permutation_in; [apply Permutation_sym, sorted_perm | exact Hx]. }
  rewrite (remove_all_covering _ (meta w) Cov).
  rewrite <- (proj1 Hs) in Cov.
  rewrite (remove_all_covering _ (files w) Cov).
  split; reflexivity.
Qed.

(** X8: a path that was not cached goes last in both dictionaries, behind
    everything the eviction kept. *)
Theorem miss_goes_last fs path w f raw data :
  synced (cache w) ->
  Dict.contains path (files w) = false ->
  fs path = Some f -> f_read f = Some raw -> json_loads raw = Some data ->
  exists w',
    _loadFile json_loads fs path w = (Ok (Some data), w') /\
    files w' = files (evicted w) ++ [(path, data)] /\
    meta w' =
      meta (evicted w) ++ [(path, {| mtime := f_mtime f; ac := 1 |})].
Proof.
  intros Hs C Hf Er J.
  assert (R : needs_reload fs path (cache w))
    by (exists f; split; [assumption | now left]).
  pose proof (reload_run _ json_loads fs path w f raw data Hs Hf R Er J) as L.
  cbv zeta in L. rewrite C in L.
  eexists. split; [exact L |]. proj.
  rewrite cache_evicted_calls.
  assert (Cf : Dict.contains path (files (evicted w)) = false)
    by now apply contains_evicted_false.
  assert (Cm : Dict.contains path (meta (evicted w)) = false).
  { rewrite <- Cf. symmetry. apply DictFacts.contains_keys.
    apply (synced_evicted _ w Hs). }
  apply DictFacts.contains_false in Cf, Cm.
  now rewrite !DictFacts.set_new by assumption.
Qed.

(** X9: what one call asks of the file system. *)
Theorem loadFile_syscalls fs path w :
  synced (cache w) ->
  exists cs,
    trace (snd (_loadFile json_loads fs path w)) = trace w ++ cs /\
    In cs [[SysExists path];
           [SysExists path; SysGetmtime path];
           [SysExists path; SysOpenRead path];
           [SysExists path; SysGetmtime path; SysOpenRead path];
           [SysExists path; SysOpenRead path; SysGetmtime path];
           [SysExists path; SysGetmtime path; SysOpenRead path;
            SysGetmtime path]].
Proof.
  intros Hs.
  destruct (loadFile_cases _ fs path w Hs)
    as [Hf|[(f & v & m & Hf & Gf & Gm & E)|R]].
  - rewrite loadFile_missing by assumption. eexists. split; [reflexivity |].
    cbn. tauto.
  - rewrite (loadFile_hit _ json_loads fs path w f v m) by assumption.
    eexists. split; [reflexivity |]. cbn. tauto.
  - rewrite loadFile_reload, real_load_run, actual_load_run by assumption.
    destruct (Dict.contains path (files w));
      destruct (fs path) as [f|];
      [destruct (f_read f) as [raw|]; [destruct (json_loads raw)|]| |
       destruct (f_read f) as [raw|]; [destruct (json_loads raw)|]| ];
      proj; rewrite trace_evicted; proj; rewrite <- app_assoc;
      (eexists; split; [reflexivity |]); cbn; tauto.
Qed.

(** X10: when the cache is full and one path alone has the smallest count,
    a miss evicts exactly that path, and the path just loaded takes its
    place as the next victim. *)
Theorem newcomer_is_next_victim fs x y w f raw data :
  synced (cache w) -> 1 <= capacity w ->
  Dict.len (files w) = capacity w ->
  lone_minimum x (cache w) ->
  Dict.contains y (files w) = false ->
  fs y = Some f -> f_read f = Some raw -> json_loads raw = Some data ->
  exists w',
    _loadFile json_loads fs y w = (Ok (Some data), w') /\
    entry x (cache w') = None /\
    entry y (cache w') = Some (data, {| mtime := f_mtime f; ac := 1 |}) /\
    (forall k, k <> x -> k <> y -> entry k (cache w') = entry k (cache w)) /\
    synced (cache w') /\
    Dict.len (files w') = capacity w' /\
    lone_minimum y (cache w').
Proof.
  intros Hs P Full (mx & Gx & Ax & Others) Cy Hf Er J.
  assert (Nxy : x <> y).
  { intros ->. apply DictFacts.contains_false in Cy. apply Cy.
    rewrite (proj1 Hs). apply DictFacts.contains_In, DictFacts.get_contains.
    now exists mx. }
  assert (G : capacity w <= Dict.len (files w)) by lia.
  assert (V : to_evict (cache w) = [(x, mx)]).
  { pose proof (to_evict_length _ _ Hs P G) as LV.
    destruct (to_evict (cache w)) as [|v [|v' r]] eqn:Ev; cbn in LV; try zlia.
    f_equal. pose proof (to_evict_incl _ (cache w) v) as Iv.
    rewrite Ev in Iv. specialize (Iv (or_introl eq_refl)).
    destruct (string_dec (fst v) x) as [E|N].
    - destruct v as [k mv]. cbn [fst] in E. rewrite E in *. f_equal.
      apply (DictFacts.In_get _ _ _ (synced_wf_meta _ _ Hs)) in Iv. congruence.
    - exfalso. pose proof (DictFacts.get_In _ _ _ Gx) as Ix.
      destruct (to_evict_order _ (cache w) v (x, mx) G) as [Lt|[Eq _]].
      + rewrite Ev. now left.
      + exact Ix.
      + rewrite Ev. intros [E|[]]. apply N. now rewrite E.
      + specialize (Others v Iv N). cbn in Lt. lia.
      + specialize (Others v Iv N). cbn in Eq. lia. }
  destruct (miss_goes_last fs y w f raw data Hs Cy Hf Er J)
    as (w' & L & Fl & Mt).
  rewrite (evicted_full _ w G), V in Fl, Mt. proj. cbn [map fst] in Fl, Mt.
  exists w'. split; [exact L |].
  assert (Hs' : synced (cache w')).
  { change w' with (snd (Ok (Some data), w')). rewrite <- L.
    now apply loadFile_synced. }
  assert (Cap' : capacity w' = capacity w).
  { change w' with (snd (Ok (Some data), w')). rewrite <- L.
    now apply loadFile_capacity. }
  assert (Gxs : forall {V} (d : Dict.t V) (e : V) k,
            Dict.get k (Dict.remove_all [x] d ++ [(y, e)]) =
            if String.eqb k x then None
            else if String.eqb k y then
                   match Dict.get k d with Some v => Some v | None => Some e end
                 else Dict.get k d).
  { intros V0 d e k.
    assert (A : forall (l : Dict.t V0),
              Dict.get k (l ++ [(y, e)]) =
              match Dict.get k l with
              | Some v => Some v
              | None => if String.eqb k y then Some e else None
              end).
    { induction l as [|[k' v'] l IH]; cbn; [reflexivity |].
      destruct (String.eqb k k'); [reflexivity | exact IH]. }
    rewrite A, DictFacts.get_remove_all. cbn [existsb]. rewrite orb_false_r.
    destruct (String.eqb_spec k x) as [->|Nk].
    - destruct (String.eqb_spec x y); [congruence | reflexivity].
    - destruct (Dict.get k d); destruct (String.eqb k y); reflexivity. }
  assert (Gyf : Dict.get y (files w) = None)
    by (apply DictFacts.get_None, DictFacts.contains_false, Cy).
  assert (Gym : Dict.get y (meta w) = None).
  { apply DictFacts.get_None. rewrite <- (proj1 Hs).
    apply DictFacts.contains_false, Cy. }
  split; [|split; [|split; [|split; [|split]]]].
  - unfold entry. rewrite Fl, Gxs. now rewrite String.eqb_refl.
  - unfold entry. rewrite Fl, Mt, !Gxs, Gyf, Gym, String.eqb_refl.
    destruct (String.eqb_spec y x); [congruence | reflexivity].
  - intros k Nx Ny. unfold entry. rewrite Fl, Mt, !Gxs.
    destruct (String.eqb_spec k x); [contradiction |].
    destruct (String.eqb_spec k y); [contradiction | reflexivity].
  - exact Hs'.
  - rewrite Cap'.
    pose proof (size_after_miss fs y w f raw data Hs P
                  ltac:(lia) Cy Hf Er J) as Sz.
    rewrite L in Sz. proj. rewrite Sz. lia.
  - exists {| mtime := f_mtime f; ac := 1 |}. split; [|split].
    + rewrite Mt, Gxs, Gym, String.eqb_refl.
      destruct (String.eqb_spec y x); [congruence | reflexivity].
    + reflexivity.
    + intros item I N. rewrite Mt in I. apply in_app_or in I as [I|[<-|[]]].
      * unfold Dict.remove_all in I. apply filter_In in I as [I F].
        apply Others; [exact I |]. intros E. rewrite E in F. cbn in F.
        now rewrite String.eqb_refl in F.
      * now cbn in N.
Qed.

(** The most used entry is not among the victims of a cache that holds
    another entry and is not over its capacity. *)
Lemma hottest_not_victim x mx w :
  synced (cache w) -> 1 <= capacity w ->
  Dict.len (files w) <= capacity w -> 2 <= Dict.len (files w) ->
  Dict.get x (meta w) = Some mx ->
  (forall item, In item (meta w) -> fst item <> x -> ac (snd item) < ac mx) ->
  capacity w <= Dict.len (files w) ->
  existsb (String.eqb x) (map fst (to_evict (cache w))) = false.
Proof.
  intros Hs P B Two Gx Hot G.
  pose proof (to_evict_length _ _ Hs P G) as LV.
  destruct (to_evict (cache w)) as [|v [|v' r]] eqn:Ev; cbn in LV; try zlia.
  cbn. rewrite orb_false_r.
  destruct (String.eqb_spec x (fst v)) as [E|N]; [exfalso | reflexivity].
  pose proof (to_evict_incl _ (cache w) v) as Iv.
  rewrite Ev in Iv. specialize (Iv (or_introl eq_refl)).
  pose proof (synced_wf_meta _ _ Hs) as W.
  pose proof (synced_lengths _ _ Hs) as Len.
  assert (Other : exists s, In s (meta w) /\ fst s <> x).
  { unfold Dict.wf, Dict.keys in W.
    destruct (meta w) as [|a [|b r]]; cbn in Len; try zlia.
    cbn in W. inversion_clear W as [|? ? Na _].
    destruct (string_dec (fst a) x) as [Ea|Na'].
    - exists b. split; [right; now left |]. intros Eb. apply Na.
      left. congruence.
    - exists a. split; [now left | exact Na']. }
  destruct Other as (s & Is & Ns).
  destruct (to_evict_order _ (cache w) v s G) as [Lt|[Eq _]].
  - rewrite Ev. now left.
  - exact Is.
  - rewrite Ev. intros [Es|[]]. apply Ns. now rewrite <- Es.
  - specialize (Hot s Is Ns).
    destruct v as [k mv]. cbn in E. subst k.
    apply (DictFacts.In_get _ _ _ W) in Iv. cbn in Lt.
    assert (mv = mx) by congruence. subst. lia.
  - specialize (Hot s Is Ns).
    destruct v as [k mv]. cbn in E. subst k.
    apply (DictFacts.In_get _ _ _ W) in Iv. cbn in Eq.
    assert (mv = mx) by congruence. subst. lia.
Qed.

(** X20: the most used entry stays.  In a cache within its capacity that
    holds at least two entries, the entry whose count is above all others is
    left as it is by any call for another path, whatever the call does. *)
Theorem hottest_entry_stays fs x y mx w :
  synced (cache w) -> 1 <= capacity w ->
  Dict.len (files w) <= capacity w -> 2 <= Dict.len (files w) ->
  Dict.get x (meta w) = Some mx ->
  (forall item, In item (meta w) -> fst item <> x -> ac (snd item) < ac mx) ->
  y <> x ->
  entry x (cache (snd (_loadFile json_loads fs y w))) = entry x (cache w).
Proof.
  intros Hs P B Two Gx Hot N.
  destruct (loadFile_cases _ fs y w Hs)
    as [Hf|[(f & v & m & Hf & Gf & Gm & E)|R]].
  - rewrite loadFile_missing by assumption. unfold entry. proj.
    now rewrite !DictFacts.get_remove_other.
  - rewrite (loadFile_hit _ json_loads fs y w f v m) by assumption.
    unfold entry. proj. now rewrite DictFacts.get_set_other.
  - rewrite loadFile_reload, real_load_run, actual_load_run by assumption.
    set (w0 := with_calls w _).
    assert (Keep : entry x (cache (evicted w0)) = entry x (cache w)).
    { unfold w0. rewrite cache_evicted_calls.
      destruct (Z.lt_ge_cases (Dict.len (files w)) (capacity w)) as [Lt|G].
      - now rewrite evicted_small.
      - rewrite evicted_full by assumption. unfold entry. proj.
        rewrite !DictFacts.get_remove_all.
        now rewrite (hottest_not_victim x mx w Hs P B Two Gx Hot G). }
    destruct (fs y) as [f|]; [|exact Keep].
    destruct (f_read f) as [raw|]; [|exact Keep].
    destruct (json_loads raw) as [data|]; [|exact Keep].
    rewrite <- Keep. unfold entry. proj.
    now rewrite !DictFacts.get_set_other.
Qed.

End CacheMore.

(** * The JSON files *)

Section JsonFacts.
Variable payload : Type.
Variable json_loads : string -> option payload.
Variable json_dumps : payload -> string.
Variable writable : string -> bool.

Lemma write_file_same path text now fs :
  write_file path text now fs path =
  Some {| f_mtime := now; f_read := Some text |}.
Proof. unfold write_file. now rewrite String.eqb_refl. Qed.

Lemma write_file_other path text now fs q :
  q <> path -> write_file path text now fs q = fs q.
Proof.
  intros N. unfold write_file.
  destruct (String.eqb_spec q path); [contradiction | reflexivity].
Qed.

(** X11: on a path without a file that can be written, [touch_json] creates
    the file with the default and returns the default; no other file
    changes. *)
Theorem touch_json_creates path default_data now fs :
  fs path = None -> writable path = true ->
  json_loads (json_dumps default_data) = Some default_data ->
  exists fs',
    touch_json json_loads json_dumps writable path default_data now fs
      = (Ok default_data, fs') /\
    fs' path =
      Some {| f_mtime := now; f_read := Some (json_dumps default_data) |} /\
    forall q, q <> path -> fs' q = fs q.
Proof.
  intros Hf Wr Rt. unfold touch_json, dump_to. rewrite Hf, Wr.
  eexists. split; [|split].
  - unfold load_from. rewrite write_file_same. cbn [f_read]. now rewrite Rt.
  - apply write_file_same.
  - intros q N. now apply write_file_other.
Qed.


(** X13: what [save_json] wrote is what [touch_json] returns, whatever its
    default. *)
Theorem save_then_touch path data now d now' fs :
  writable path = true ->
  json_loads (json_dumps data) = Some data ->
  let saved := save_json json_dumps writable path data now fs in
  fst saved = Ok tt /\
  touch_json json_loads json_dumps writable path d now' (snd saved)
    = (Ok data, snd saved).
Proof.
  intros Wr Rt. unfold save_json, touch_json, dump_to. rewrite Wr.
  cbn [fst snd]. split; [reflexivity |].
  rewrite write_file_same. unfold load_from.
  rewrite write_file_same. cbn [f_read]. now rewrite Rt.
Qed.

End JsonFacts.

(** * The configuration managers *)

Section ManagerFacts.
Local Open Scope string_scope.
Variable payload : Type.
Variable json_loads : string -> option payload.
Variable json_dumps : payload -> string.
Variable writable : string -> bool.
Variable os_path_join : string -> string -> string.
Variable LeidiansConfig : Type.
Variable LeidiansConfig_from_dict : option payload -> outcome LeidiansConfig.
Variable LeidiansConfig_to_dict : LeidiansConfig -> payload.
Variable LeidianConfig : Type.
Variable LeidianConfig_from_dict : option payload -> outcome LeidianConfig.
Variable isdigit_char : Ascii.ascii -> bool.
Variable py_int : string -> outcome Z.
Variable py_str : Z -> string.

Local Abbreviation leidians_path self :=
  (os_path_join (LDAttr.config os_path_join self) "leidians.config").
Local Abbreviation get_leidians :=
  (getLeidiansConfig json_loads os_path_join LeidiansConfig_from_dict).
Local Abbreviation dump_leidians :=
  (dumpLeidiansConfig json_dumps writable os_path_join LeidiansConfig_to_dict).
Local Abbreviation get_leidian :=
  (getLeidianConfig json_loads os_path_join LeidianConfig_from_dict
     isdigit_char py_int py_str).

(** X14: read after write.  After [dumpLeidiansConfig], which does not touch
    the cache, [getLeidiansConfig] returns the configuration that was
    written, provided the file was not cached or was cached with another
    modification time than the write's. *)
Theorem read_after_write self config now fs (w : World payload) :
  synced (cache w) ->
  writable (leidians_path self) = true ->
  json_loads (json_dumps (LeidiansConfig_to_dict config))
    = Some (LeidiansConfig_to_dict config) ->
  (forall m, Dict.get (leidians_path self) (_opened_meta (cache w)) = Some m ->
             mtime m <> now) ->
  let written := dump_leidians self config now fs in
  fst written = Ok tt /\
  fst (get_leidians self (snd written) w) =
    LeidiansConfig_from_dict (Some (LeidiansConfig_to_dict config)).
Proof.
  intros Hs Wr Rt Fresh.
  unfold dumpLeidiansConfig, dump_to. rewrite Wr. cbn [fst snd].
  split; [reflexivity |].
  unfold getLeidiansConfig, load_as.
  set (path := leidians_path self) in *.
  set (fs' := write_file path _ now fs).
  assert (Hf : fs' path = Some {| f_mtime := now;
      f_read := Some (json_dumps (LeidiansConfig_to_dict config)) |})
    by apply write_file_same.
  assert (R : needs_reload fs' path (cache w)).
  { eexists. split; [exact Hf |]. cbn [f_mtime].
    destruct (Dict.contains path (_opened_files (cache w))) eqn:C;
      [right | now left].
    rewrite (DictFacts.contains_keys _ _ _ (proj1 Hs)) in C.
    apply DictFacts.get_contains in C as [m Gm]. rewrite Gm.
    now apply Fresh. }
  pose proof (reload_run _ json_loads fs' path w _ _ _ Hs Hf R eq_refl Rt)
    as L.
  cbv zeta in L. now rewrite L.
Qed.



Lemma isdigit_leidian s :
  isdigit_char "l"%char = false -> isdigit isdigit_char ("leidian" ++ s) = false.
Proof. intros H. unfold isdigit. cbn. now rewrite H. Qed.

Lemma startswith_append p s : startswith (p ++ s) p = true.
Proof.
  unfold startswith. induction p as [|c p IH]; cbn.
  - now destruct s.
  - destruct (Ascii.ascii_dec c c); [exact IH | contradiction].
Qed.

(** X17: one instance, several spellings.  A string of digits stands for
    the number [int] reads from it, so leading zeros are dropped, and the
    name made of [leidian] and the decimal string of a number stands for
    that number: they load the same file, with the same result and the same
    effect on the cache. *)
Theorem leidian_spellings self s n fs (w : World payload) :
  isdigit_char "l"%char = false ->
  isdigit isdigit_char s = true ->
  py_int s = Return n ->
  get_leidian self (IdStr s) fs w = get_leidian self (IdInt n) fs w /\
  get_leidian self (IdStr ("leidian" ++ py_str n)) fs w
    = get_leidian self (IdInt n) fs w.
Proof.
  intros Hl Hd Hi. unfold getLeidianConfig. split.
  - now rewrite Hd, Hi.
  - now rewrite isdigit_leidian, startswith_append.
Qed.

Lemma substring_all s : String.substring 0 (String.length s) s = s.
Proof. induction s as [|c s IH]; cbn; [reflexivity | now rewrite IH]. Qed.

Lemma substring_append s t :
  String.substring (String.length s) (String.length t) (s ++ t) = t.
Proof. induction s as [|c s IH]; cbn; [apply substring_all | exact IH]. Qed.

Lemma string_length_append s t :
  String.length (s ++ t) = (String.length s + String.length t)%nat.
Proof. induction s as [|c s IH]; cbn; [reflexivity | now rewrite IH]. Qed.

Lemma endswith_append s t : endswith (s ++ t) t = true.
Proof.
  unfold endswith. rewrite string_length_append.
  replace (String.length s + String.length t - String.length t)%nat
    with (String.length s) by lia.
  rewrite substring_append, String.eqb_refl, andb_true_r.
  apply Nat.leb_le. lia.
Qed.

(** X18: the extension is optional.  A profile name without [.smp] and the
    same name with it are the same request, for the customized and for the
    recommended profiles, whatever the loader does. *)
Theorem smp_extension_optional {R} (loadFile : string -> R) self name :
  endswith name ".smp" = false ->
  getCustomize os_path_join loadFile self name =
    getCustomize os_path_join loadFile self (name ++ ".smp") /\
  getRecommended os_path_join loadFile self name =
    getRecommended os_path_join loadFile self (name ++ ".smp").
Proof.
  intros E. unfold getCustomize, getRecommended.
  now rewrite E, endswith_append.
Qed.


End ManagerFacts.

(** * The further properties on worked inputs *)

Section MoreInstances.
Local Open Scope string_scope.

Ltac run := vm_compute; reflexivity.

Ltac solve_synced :=
  split; [run |]; unfold Dict.wf; vm_compute;
  repeat constructor; simpl; intuition discriminate.

Lemma synced_half : synced (cache Site.half).
Proof. solve_synced. Defined.

Lemma synced_unbounded : synced (cache Site.unbounded).
Proof. solve_synced. Defined.

Lemma synced_fresh : synced (cache (@empty_world string 2)).
Proof. split; [reflexivity | constructor]. Defined.



Lemma load_then_hit_witness :
  let w1 := snd (_loadFile Demo.loads Demo.abc "b" Site.half) in
  synced (cache Site.half) /\
  _loadFile Demo.loads Demo.abc "b" Site.half = (Ok (Some "[2]"), w1) /\
  exists m,
    entry "b" (cache w1) = Some ("[2]", m) /\
    fst (_loadFile Demo.loads Site.new_a "b" w1) = Ok (Some "[2]").
Proof.
  intros w1.
  assert (L : _loadFile Demo.loads Demo.abc "b" Site.half
              = (Ok (Some "[2]"), w1)) by run.
  assert (Hf : Demo.abc "b" = Some (Demo.file 20 "[2]")) by run.
  assert (Hf' : exists f', Site.new_a "b" = Some f' /\
                  f_mtime f' = f_mtime (Demo.file 20 "[2]"))
    by (exists (Demo.file 20 "[2]"); split; run).
  split; [exact synced_half |]. split; [exact L |].
  destruct (load_then_hit string Demo.loads Demo.abc Site.new_a "b"
              Site.half "[2]" w1 (Demo.file 20 "[2]") synced_half L Hf Hf')
    as (m & En & L2).
  exists m. split; [exact En |]. now rewrite L2.
Defined.
Lemma needs_reload_half_b : needs_reload Demo.abc "b" (cache Site.half).
Proof.
  exists (Demo.file 20 "[2]"). split; [run | left; run].
Defined.

Lemma load_below_capacity_witness :
  synced (cache Site.half) /\
  Dict.len (_opened_files (cache Site.half)) < _total_cached (cache Site.half) /\
  needs_reload Demo.abc "b" (cache Site.half) /\
  exists w',
    _loadFile Demo.loads Demo.abc "b" Site.half = (Ok (Some "[2]"), w') /\
    entry "a" (cache w') = entry "a" (cache Site.half).
Proof.
  assert (Lt : Dict.len (_opened_files (cache Site.half)) <
               _total_cached (cache Site.half)) by run.
  split; [exact synced_half |]. split; [exact Lt |].
  split; [exact needs_reload_half_b |].
  destruct (load_below_capacity string Demo.loads Demo.abc "b" Site.half
              (Demo.file 20 "[2]") "[2]" "[2]" synced_half Lt
              needs_reload_half_b eq_refl eq_refl eq_refl)
    as (w' & L & _ & _ & Other).
  exists w'. split; [exact L |]. refine (Other "a" _). discriminate.
Defined.

Lemma size_after_miss_witness :
  synced (cache Demo.full) /\
  Dict.contains "c" (_opened_files (cache Demo.full)) = false /\
  Dict.len (_opened_files
              (cache (snd (_loadFile Demo.loads Demo.abc "c" Demo.full)))) =
  Z.min (Dict.len (_opened_files (cache Demo.full)) + 1)
        (_total_cached (cache Demo.full)).
Proof.
  assert (P : 1 <= _total_cached (cache Demo.full))
    by (vm_compute; discriminate).
  assert (B : Dict.len (_opened_files (cache Demo.full)) <=
              _total_cached (cache Demo.full)) by (vm_compute; discriminate).
  assert (C : Dict.contains "c" (_opened_files (cache Demo.full)) = false)
    by run.
  split; [exact synced_full |]. split; [exact C |].
  exact (size_after_miss string Demo.loads Demo.abc "c" Demo.full
           (Demo.file 30 "[3]") "[3]" "[3]" synced_full P B C
           eq_refl eq_refl eq_refl).
Defined.

Lemma stale_reload_frees_slot_witness :
  synced (cache Demo.full) /\
  Dict.len (_opened_files (cache Demo.full)) = _total_cached (cache Demo.full) /\
  Dict.get "a" (_opened_meta (cache Demo.full)) =
    Some {| mtime := 10; ac := 2 |} /\
  Site.new_a "a" = Some (Demo.file 11 "[1, 1]") /\
  exists w',
    _loadFile Demo.loads Site.new_a "a" Demo.full = (Ok (Some "[1, 1]"), w') /\
    Dict.len (_opened_files (cache w')) = _total_cached (cache Demo.full) - 1.
Proof.
  assert (P : 1 <= _total_cached (cache Demo.full))
    by (vm_compute; discriminate).
  assert (G : _total_cached (cache Demo.full) <=
              Dict.len (_opened_files (cache Demo.full)))
    by (vm_compute; discriminate).
  assert (Gf : Dict.get "a" (_opened_files (cache Demo.full)) = Some "[1]")
    by run.
  assert (Gm : Dict.get "a" (_opened_meta (cache Demo.full)) =
               Some {| mtime := 10; ac := 2 |}) by run.
  assert (N : mtime {| mtime := 10; ac := 2 |} <>
              f_mtime (Demo.file 11 "[1, 1]")) by (vm_compute; discriminate).
  assert (Nv : existsb (String.eqb "a")
                 (map fst (to_evict (cache Demo.full))) = false) by run.
  assert (Hf : Site.new_a "a" = Some (Demo.file 11 "[1, 1]")) by run.
  split; [exact synced_full |]. split; [run |]. split; [exact Gm |].
  split; [exact Hf |].
  destruct (stale_reload_frees_slot string Demo.loads Site.new_a "a" Demo.full
              (Demo.file 11 "[1, 1]") "[1, 1]" "[1, 1]" "[1]"
              {| mtime := 10; ac := 2 |} synced_full P G Gf Gm N Nv Hf
              eq_refl eq_refl)
    as (w' & L & Sz & _).
  exists w'. split; [exact L | exact Sz].
Defined.

Lemma needs_reload_unbounded_b :
  needs_reload Demo.abc "b" (cache Site.unbounded).
Proof.
  exists (Demo.file 20 "[2]"). split; [run | left; run].
Defined.

Lemma nonpositive_capacity_witness :
  synced (cache Site.unbounded) /\
  _total_cached (cache Site.unbounded) <= 0 /\
  _opened_files (cache Site.unbounded) = [("a", "[1]")] /\
  exists w',
    _loadFile Demo.loads Demo.abc "b" Site.unbounded = (Ok (Some "[2]"), w') /\
    _opened_files (cache w') = [("b", "[2]")].
Proof.
  assert (NP : _total_cached (cache Site.unbounded) <= 0)
    by (vm_compute; discriminate).
  split; [exact synced_unbounded |]. split; [exact NP |]. split; [run |].
  destruct (nonpositive_capacity string Demo.loads Demo.abc "b" Site.unbounded
              (Demo.file 20 "[2]") "[2]" "[2]" synced_unbounded NP
              needs_reload_unbounded_b eq_refl eq_refl eq_refl)
    as (w' & L & Fl & _).
  exists w'. split; [exact L | exact Fl].
Defined.

Lemma miss_goes_last_witness :
  synced (cache Demo.full) /\
  Dict.contains "c" (_opened_files (cache Demo.full)) = false /\
  exists w',
    _loadFile Demo.loads Demo.abc "c" Demo.full = (Ok (Some "[3]"), w') /\
    _opened_files (cache w') =
      (_opened_files (cache (evicted Demo.full)) ++ [("c", "[3]")])%list.
Proof.
  assert (C : Dict.contains "c" (_opened_files (cache Demo.full)) = false)
    by run.
  split; [exact synced_full |]. split; [exact C |].
  destruct (miss_goes_last string Demo.loads Demo.abc "c" Demo.full
              (Demo.file 30 "[3]") "[3]" "[3]" synced_full C
              eq_refl eq_refl eq_refl)
    as (w' & L & Fl & _).
  exists w'. split; [exact L | exact Fl].
Defined.

Lemma loadFile_syscalls_witness :
  synced (cache Demo.full) /\
  exists cs,
    trace (snd (_loadFile Demo.loads Demo.abc "a" Demo.full)) =
      (trace Demo.full ++ cs)%list /\
    (List.length cs <= 4)%nat.
Proof.
  split; [exact synced_full |].
  destruct (loadFile_syscalls string Demo.loads Demo.abc "a" Demo.full
              synced_full) as (cs & T & I).
  exists cs. split; [exact T |].
  cbn [In] in I.
  destruct I as [<-|[<-|[<-|[<-|[<-|[<-|[]]]]]]]; cbn [List.length]; lia.
Defined.

Lemma lone_minimum_full : lone_minimum "b" (cache Demo.full).
Proof.
  exists {| mtime := 20; ac := 1 |}. split; [run |]. split; [reflexivity |].
  intros item I N. vm_compute in I.
  destruct I as [<-|[<-|[]]]; [vm_compute; discriminate |].
  exfalso. apply N. reflexivity.
Defined.

Lemma newcomer_is_next_victim_witness :
  synced (cache Demo.full) /\
  Dict.len (_opened_files (cache Demo.full)) = _total_cached (cache Demo.full) /\
  lone_minimum "b" (cache Demo.full) /\
  exists w',
    _loadFile Demo.loads Demo.abc "c" Demo.full = (Ok (Some "[3]"), w') /\
    entry "b" (cache w') = None /\
    lone_minimum "c" (cache w').
Proof.
  assert (P : 1 <= _total_cached (cache Demo.full))
    by (vm_compute; discriminate).
  assert (Full : Dict.len (_opened_files (cache Demo.full)) =
                 _total_cached (cache Demo.full)) by run.
  assert (C : Dict.contains "c" (_opened_files (cache Demo.full)) = false)
    by run.
  split; [exact synced_full |]. split; [exact Full |].
  split; [exact lone_minimum_full |].
  destruct (newcomer_is_next_victim string Demo.loads Demo.abc "b" "c"
              Demo.full (Demo.file 30 "[3]") "[3]" "[3]" synced_full P Full
              lone_minimum_full C eq_refl eq_refl eq_refl)
    as (w' & L & Ex & _ & _ & _ & _ & Next).
  exists w'. split; [exact L |]. split; [exact Ex | exact Next].
Defined.

Lemma touch_json_creates_witness :
  Demo.no_b "b" = None /\ Site.writable "b" = true /\
  Demo.loads (Site.dumps "[]") = Some "[]" /\
  exists fs',
    touch_json Demo.loads Site.dumps Site.writable "b" "[]" 40 Demo.no_b
      = (Ok "[]", fs') /\
    fs' "a" = Demo.no_b "a".
Proof.
  assert (Hf : Demo.no_b "b" = None) by run.
  assert (Wr : Site.writable "b" = true) by run.
  assert (Rt : Demo.loads (Site.dumps "[]") = Some "[]") by run.
  split; [exact Hf |]. split; [exact Wr |]. split; [exact Rt |].
  destruct (touch_json_creates string Demo.loads Site.dumps Site.writable
              "b" "[]" 40 Demo.no_b Hf Wr Rt) as (fs' & T & _ & Other).
  exists fs'. split; [exact T |]. refine (Other "a" _). discriminate.
Defined.

Lemma save_then_touch_witness :
  Site.writable "b" = true /\
  Demo.loads (Site.dumps "[5]") = Some "[5]" /\
  touch_json Demo.loads Site.dumps Site.writable "b" "[]" 41
    (snd (save_json Site.dumps Site.writable "b" "[5]" 40 Demo.abc))
  = (Ok "[5]", snd (save_json Site.dumps Site.writable "b" "[5]" 40 Demo.abc)).
Proof.
  assert (Wr : Site.writable "b" = true) by run.
  assert (Rt : Demo.loads (Site.dumps "[5]") = Some "[5]") by run.
  split; [exact Wr |]. split; [exact Rt |].
  exact (proj2 (save_then_touch string Demo.loads Site.dumps Site.writable
                  "b" "[5]" 40 "[]" 41 Demo.abc Wr Rt)).
Defined.

Lemma read_after_write_witness :
  synced (cache Site.loaded) /\
  Site.writable Site.leidians = true /\
  Dict.get Site.leidians (_opened_meta (cache Site.loaded)) =
    Some {| mtime := 7; ac := 1 |} /\
  7 <> 8 /\
  fst (getLeidiansConfig Demo.loads Site.join Site.from_dict Site.install
         (snd (dumpLeidiansConfig Site.dumps Site.writable Site.join
                 Site.to_dict Site.install "[8]" 8 Site.disk7))
         Site.loaded)
  = Return "[8]".
Proof.
  assert (Hs : synced (cache Site.loaded)) by solve_synced.
  assert (Wr : Site.writable
                 (Site.join (LDAttr.config Site.join Site.install)
                    "leidians.config") = true) by run.
  assert (Rt : Demo.loads (Site.dumps (Site.to_dict "[8]")) =
               Some (Site.to_dict "[8]")) by run.
  assert (Fresh : forall m,
            Dict.get (Site.join (LDAttr.config Site.join Site.install)
                        "leidians.config")
              (_opened_meta (cache Site.loaded)) = Some m ->
            mtime m <> 8).
  { assert (Gm : Dict.get (Site.join (LDAttr.config Site.join Site.install)
                             "leidians.config")
                   (_opened_meta (cache Site.loaded)) =
                 Some {| mtime := 7; ac := 1 |}) by run.
    intros m G E. rewrite Gm in G. inversion G as [Em].
    rewrite <- Em in E. discriminate E. }
  split; [exact Hs |]. split; [run |]. split; [run |].
  split; [discriminate |].
  exact (proj2 (read_after_write string Demo.loads Site.dumps Site.writable
                  Site.join string Site.from_dict Site.to_dict Site.install
                  "[8]" 8 Site.disk7 Site.loaded Hs Wr Rt Fresh)).
Defined.


Lemma coherent_fresh :
  coherent Demo.loads Site.disk7
    (Site.join (LDAttr.config Site.join Site.install) "leidians.config")
    (cache (@empty_world string 2)).
Proof. intros v f G. vm_compute in G. discriminate. Defined.


Lemma leidian_spellings_witness :
  Site.isdigit_char "l"%char = false /\
  isdigit Site.isdigit_char "007" = true /\
  Site.int "007" = Return 7 /\
  getLeidianConfig Demo.loads Site.join Site.from_dict Site.isdigit_char
    Site.int Site.str Site.install (IdStr "007") Demo.abc (empty_world 2)
  = getLeidianConfig Demo.loads Site.join Site.from_dict Site.isdigit_char
      Site.int Site.str Site.install (IdStr "leidian7") Demo.abc
      (empty_world 2).
Proof.
  assert (Hl : Site.isdigit_char "l"%char = false) by run.
  assert (Hd : isdigit Site.isdigit_char "007" = true) by run.
  assert (Hi : Site.int "007" = Return 7) by run.
  split; [exact Hl |]. split; [exact Hd |]. split; [exact Hi |].
  destruct (leidian_spellings string Demo.loads Site.join string
              Site.from_dict Site.isdigit_char Site.int Site.str
              Site.install "007" 7 Demo.abc (empty_world 2) Hl Hd Hi)
    as [E1 E2].
  exact (eq_trans E1 (eq_sym E2)).
Defined.

Lemma smp_extension_optional_witness :
  endswith "pubg" ".smp" = false /\
  getCustomize Site.join (fun p : string => p) Site.install "pubg" =
  getCustomize Site.join (fun p : string => p) Site.install "pubg.smp".
Proof.
  assert (E : endswith "pubg" ".smp" = false) by run.
  split; [exact E |].
  exact (proj1 (smp_extension_optional Site.join (fun p : string => p)
                  Site.install "pubg" E)).
Defined.


Lemma hottest_entry_stays_witness :
  synced (cache Demo.full) /\
  Dict.get "a" (_opened_meta (cache Demo.full)) =
    Some {| mtime := 10; ac := 2 |} /\
  entry "a" (cache (snd (_loadFile Demo.loads Demo.abc "c" Demo.full))) =
  entry "a" (cache Demo.full).
Proof.
  assert (P : 1 <= _total_cached (cache Demo.full))
    by (vm_compute; discriminate).
  assert (B : Dict.len (_opened_files (cache Demo.full)) <=
              _total_cached (cache Demo.full)) by (vm_compute; discriminate).
  assert (Two : 2 <= Dict.len (_opened_files (cache Demo.full)))
    by (vm_compute; discriminate).
  assert (Gx : Dict.get "a" (_opened_meta (cache Demo.full)) =
               Some {| mtime := 10; ac := 2 |}) by run.
  assert (Hot : forall item, In item (_opened_meta (cache Demo.full)) ->
                  fst item <> "a" ->
                  ac (snd item) < ac {| mtime := 10; ac := 2 |}).
  { intros item I N. vm_compute in I. destruct I as [<-|[<-|[]]].
    - exfalso. apply N. reflexivity.
    - reflexivity. }
  assert (N : "c" <> "a") by discriminate.
  split; [exact synced_full |]. split; [exact Gx |].
  exact (hottest_entry_stays string Demo.loads Demo.abc "a" "c"
           {| mtime := 10; ac := 2 |} Demo.full synced_full P B Two Gx Hot N).
Defined.

End MoreInstances.
